(** * matches.py: the cross-source match reconciliation core

    A shallow embedding of the name normaliser, the name matcher, the
    competition filter and the merge loop of [matches.py], with the
    properties of its specification.

    Python values are modelled as follows.
    - [str] is a list of Unicode code points ([list N]).
    - [None] passed where a string is expected is [None : option (list N)];
      the idiom [x or ''] is [or_empty].
    - a [set] of strings is a [gset (list N)].
    - the library functions [unicodedata.normalize("NFKD", _)],
      [str.lower], [rapidfuzz.fuzz.ratio], [rapidfuzz.fuzz.partial_ratio]
      and [datetime.strptime(_, "%Y-%m-%d %H:%M")] are parameters of the
      development; what is assumed of them is stated where it is used. *)

From Stdlib Require Import NArith ZArith QArith Ascii String Lia.
From stdpp Require Import base decidable option list sets gmap sorting strings.

Set Default Proof Using "Type".
Local Open Scope N_scope.

(** ** Python strings *)

Abbreviation pystr := (list N).

(** A Rocq literal read as a Python [str] literal (code points of its
    characters). *)
Definition py (s : string) : pystr :=
  (λ a, N_of_ascii a) <$> list_ascii_of_string s.
Arguments py s%_string.

(** [x or ''] *)
Definition or_empty (x : option pystr) : pystr :=
  match x with
  | Some s => s
  | None => []
  end.

(** Truthiness of a [str]: non-empty. *)
Definition truthy (s : pystr) : bool :=
  match s with
  | [] => false
  | _ :: _ => true
  end.

Definition is_ascii (c : N) : bool := c <? 128.

(** [a-z] *)
Definition is_lower_az (c : N) : bool := (97 <=? c) && (c <=? 122).

(** [A-Z] *)
Definition is_upper_AZ (c : N) : bool := (65 <=? c) && (c <=? 90).

(** What [str.lower] does to a code point below 128. *)
Definition ascii_lower (c : N) : N :=
  if is_upper_AZ c then c + 32 else c.

Definition SPACE : N := 32.

(** [Py_UNICODE_ISSPACE], shared by [str.strip], [str.split] and the
    regular expression class [\s] on [str] patterns. *)
Definition is_space (c : N) : bool :=
  ((9 <=? c) && (c <=? 13)) || ((28 <=? c) && (c <=? 32))
  || (c =? 133) || (c =? 160) || (c =? 5760)
  || ((8192 <=? c) && (c <=? 8202))
  || (c =? 8232) || (c =? 8233) || (c =? 8239) || (c =? 8287)
  || (c =? 12288).

(** [s.encode("ascii", "ignore")]: code points that have no ASCII
    encoding are dropped. *)
Definition encode_ascii_ignore (s : pystr) : list N :=
  filter (λ c, is_ascii c) s.

(** [b.decode("utf-8")] on 7-bit bytes: every byte is its own code
    point. *)
Definition decode_utf8 (b : list N) : pystr := b.

(** [re.sub(r"[^a-z ]", " ", n)] *)
Definition re_sub_non_letters (n : pystr) : pystr :=
  (λ c, if is_lower_az c || (c =? SPACE) then c else SPACE) <$> n.

(** [re.sub(r"\s+", " ", n)]: each maximal run of whitespace becomes one
    space. [in_run] tells that the previous character was whitespace. *)
Fixpoint re_sub_ws_from (in_run : bool) (n : pystr) : pystr :=
  match n with
  | [] => []
  | c :: n' =>
      if is_space c
      then (if in_run then re_sub_ws_from true n'
            else SPACE :: re_sub_ws_from true n')
      else c :: re_sub_ws_from false n'
  end.

Definition re_sub_ws (n : pystr) : pystr := re_sub_ws_from false n.

(** [str.lstrip()], [str.rstrip()], [str.strip()] *)
Fixpoint lstrip (s : pystr) : pystr :=
  match s with
  | [] => []
  | c :: s' => if is_space c then lstrip s' else s
  end.

Fixpoint rstrip (s : pystr) : pystr :=
  match s with
  | [] => []
  | c :: s' =>
      match rstrip s' with
      | [] => if is_space c then [] else [c]
      | r => c :: r
      end
  end.

Definition strip (s : pystr) : pystr := rstrip (lstrip s).

(** [str.split()] without argument: the maximal whitespace-free runs.
    [cur] is the word being read. *)
Fixpoint split_from (cur : pystr) (s : pystr) : list pystr :=
  match s with
  | [] => if truthy cur then [cur] else []
  | c :: s' =>
      if is_space c
      then (if truthy cur then cur :: split_from [] s' else split_from [] s')
      else split_from (cur ++ [c]) s'
  end.

Definition split (s : pystr) : list pystr := split_from [] s.

(** [" ".join(ts)] *)
Fixpoint join_space (ts : list pystr) : pystr :=
  match ts with
  | [] => []
  | [t] => t
  | t :: ts' => t ++ SPACE :: join_space ts'
  end.

(** [needle in hay] for strings *)
Fixpoint starts_with (p s : pystr) : bool :=
  match p, s with
  | [], _ => true
  | _ :: _, [] => false
  | a :: p', b :: s' => (a =? b) && starts_with p' s'
  end.

Fixpoint str_in (needle hay : pystr) : bool :=
  starts_with needle hay ||
  match hay with
  | [] => false
  | _ :: hay' => str_in needle hay'
  end.

(** [needle in hay], as a proposition. *)
Definition substring (needle hay : pystr) : Prop :=
  ∃ pre post, hay = pre ++ needle ++ post.

(** The characters that [re_sub_non_letters] leaves in a string. *)
Definition letter_or_space (c : N) : bool := is_lower_az c || (c =? SPACE).

(** A word: non-empty and free of whitespace. *)
Definition word (t : pystr) : Prop :=
  t ≠ [] ∧ Forall (λ c, is_space c = false) t.

(** ** Name helpers *)

Definition stopwords : gset pystr :=
  {[ py "fc"; py "cf"; py "club"; py "the"; py "team"; py "deportivo" ]}.

(** ** Records

    The dictionaries built by the four fetchers. A OneFootball record
    (lines 114-124) always has its nine keys; the merge loop reads the
    other sources with [dict.get] and a default, so a key that is absent
    there (or bound to [None]) is [None] here. *)

Record OFMatch := mkOFMatch {
  match_id : pystr;
  home : pystr;
  away : pystr;
  competition : option pystr;
  kickoff : pystr;
  home_logo : pystr;
  away_logo : pystr;
  home_score : pystr;
  away_score : pystr
}.

Record SrcMatch := mkSrcMatch {
  src_home : option pystr;
  src_away : option pystr;
  src_competition : option pystr;
  src_kickoff : option pystr;
  src_channels : option (list pystr)
}.

(** A OneFootball record after [om["channels"] = ...]. *)
Record MergedMatch := mkMergedMatch {
  primary : OFMatch;
  channels : list pystr
}.

(** ** Naive datetimes

    The fields that the format ["%Y-%m-%d %H:%M"] sets; seconds and
    microseconds are zero. Naive datetimes compare field by field. *)

Record datetime := mkDatetime {
  year : N;
  month : N;
  day : N;
  hour : N;
  minute : N
}.

Definition datetime_ltb (a b : datetime) : bool :=
  (year a <? year b) || ((year a =? year b) &&
  ((month a <? month b) || ((month a =? month b) &&
  ((day a <? day b) || ((day a =? day b) &&
  ((hour a <? hour b) || ((hour a =? hour b) &&
  (minute a <? minute b)))))))).

(** [a <= b] on sort keys, as [list.sort] sees it: not [b < a]. *)
Definition key_le {A} (a b : datetime * A) : Prop :=
  datetime_ltb b.1 a.1 = false.

(** ** Exceptions *)

Inductive exn := ValueError.

Inductive result (A : Type) :=
  | Ok (a : A)
  | Raise (e : exn).
Arguments Ok {A} a.
Arguments Raise {A} e.

(** ** Sample library functions

    Executable stand-ins for the library functions, used to run the
    embedding on concrete inputs. They agree with the libraries on the
    inputs they are run on here; no theorem about the program depends on
    them. *)

(** NFKD over a sample of the decomposition table: a few accented Latin
    letters (base letter followed by the combining mark) and the
    ligature U+FB01; every other code point is left alone. *)
Definition nfkd_sample_char (c : N) : pystr :=
  if c =? 201 then [69; 769]          (* E acute *)
  else if c =? 225 then [97; 769]     (* a acute *)
  else if c =? 233 then [101; 769]    (* e acute *)
  else if c =? 241 then [110; 771]    (* n tilde *)
  else if c =? 252 then [117; 776]    (* u diaeresis *)
  else if c =? 64257 then [102; 105]  (* ligature fi *)
  else [c].

Definition nfkd_sample (s : pystr) : pystr := s ≫= nfkd_sample_char.

(** [str.lower] on ASCII and on the Latin-1 capital letters. *)
Definition lower_sample_char (c : N) : N :=
  if is_upper_AZ c then c + 32
  else if (192 <=? c) && (c <=? 222) && negb (c =? 215) then c + 32
  else c.

Definition lower_sample (s : pystr) : pystr := lower_sample_char <$> s.

(** Length of a longest common subsequence. *)
Fixpoint lcs (s t : pystr) : nat :=
  match s with
  | [] => 0%nat
  | a :: s' =>
      (fix along (t : pystr) : nat :=
         match t with
         | [] => 0%nat
         | b :: t' =>
             if a =? b then S (lcs s' t')
             else Nat.max (lcs s' t) (along t')
         end) t
  end.

(** The normalised indel similarity, in percent:
    [100 * 2 * lcs / (len s + len t)], and 100 for two empty strings. *)
Definition ratio_sample (s t : pystr) : Q :=
  match (length s + length t)%nat with
  | O => 100%Q
  | S n => Qmake (200 * Z.of_nat (lcs s t)) (Pos.of_succ_nat n)
  end.

(** The substrings of [t] of length at most [m] that a window of width
    [m] sliding over [t] cuts out. *)
Definition windows (m : nat) (t : pystr) : list pystr :=
  ((λ k, take k t) <$> seq 1 (Nat.pred m)) ++
  ((λ i, take m (drop i t)) <$> seq 0 (length t)).

Definition Qmax (a b : Q) : Q := if Qle_bool a b then b else a.

(** The best [ratio_sample] of the shorter string against a window of
    the longer one. *)
Definition partial_ratio_sample (s t : pystr) : Q :=
  let (short, long) :=
    if (length s <=? length t)%nat then (s, t) else (t, s) in
  match short with
  | [] => match long with [] => 100%Q | _ => 0%Q end
  | _ => foldr Qmax 0%Q (ratio_sample short <$> windows (length short) long)
  end.

(** [strptime(_, "%Y-%m-%d %H:%M")] on the zero-padded form that
    [strftime] writes with that format, [YYYY-MM-DD HH:MM]; anything else
    is refused. *)
Definition digit (c : N) : option N :=
  if (48 <=? c) && (c <=? 57) then Some (c - 48) else None.

Definition digits2 (a b : N) : option N :=
  x ← digit a; y ← digit b; Some (10 * x + y).

Definition digits4 (a b c d : N) : option N :=
  x ← digits2 a b; y ← digits2 c d; Some (100 * x + y).

Definition is_leap (y : N) : bool :=
  ((y mod 4 =? 0) && negb (y mod 100 =? 0)) || (y mod 400 =? 0).

Definition days_in_month (y m : N) : N :=
  if m =? 2 then (if is_leap y then 29 else 28)
  else if (m =? 4) || (m =? 6) || (m =? 9) || (m =? 11) then 30
  else 31.

Definition strptime_sample (s : pystr) : option datetime :=
  match s with
  | [y1; y2; y3; y4; d1; m1; m2; d2; a1; a2; sp; h1; h2; co; n1; n2] =>
      if (d1 =? 45) && (d2 =? 45) && (sp =? 32) && (co =? 58) then
        y ← digits4 y1 y2 y3 y4;
        m ← digits2 m1 m2;
        d ← digits2 a1 a2;
        h ← digits2 h1 h2;
        mi ← digits2 n1 n2;
        if (1 <=? y) && (1 <=? m) && (m <=? 12) && (1 <=? d)
           && (d <=? days_in_month y m) && (h <=? 23) && (mi <=? 59)
        then Some (mkDatetime y m d h mi)
        else None
      else None
  | _ => None
  end.

(** Sample records: a Premier League fixture, the same fixture as two
    other sources list it (the second under the women's teams), a
    women's fixture, and fixtures at other times of the day. *)
Definition fixture (h a c k : string) : OFMatch :=
  mkOFMatch (py "1") (py h) (py a) (Some (py c)) (py k) [] [] (py "0") (py "0").
Arguments fixture (h a c k)%_string.

Definition listing (h a c : string) (chs : list pystr) : SrcMatch :=
  mkSrcMatch (Some (py h)) (Some (py a)) (Some (py c)) None (Some chs).
Arguments listing (h a c)%_string chs.

Definition arsenal_chelsea : OFMatch :=
  fixture "Arsenal" "Chelsea" "Premier League" "2024-05-01 17:30".
Definition arsenal_chelsea_women : OFMatch :=
  fixture "Arsenal Women" "Chelsea Women" "WSL" "2024-05-01 14:00".
Definition leeds_burnley : OFMatch :=
  fixture "Leeds" "Burnley" "Championship" "2024-05-01 12:30".
Definition everton_fulham : OFMatch :=
  fixture "Everton" "Fulham" "Premier League" "2024-05-01 20:00".
Definition porto_braga_unparsed : OFMatch :=
  fixture "Porto" "Braga" "Liga Portugal" "Unknown".

Definition wtm_arsenal : SrcMatch :=
  listing "Arsenal FC" "Chelsea FC" "Premier League" [py "BBC"].
Definition daddylive_arsenal_women : SrcMatch :=
  listing "Arsenal Women" "Chelsea Women" "Women's Super League"
    [py "ESPN"; []; py "bbc"].
Definition wtm_leeds_untitled : SrcMatch :=
  listing "Leeds United" "Burnley FC" "Championship" [[]; []].

(** A scorer that knows equal strings only: 100 for them, 0 otherwise. *)
Definition exact_score (s t : pystr) : Q :=
  if decide (s = t) then 100%Q else 0%Q.

(** ** What the fetchers append

    The dictionary literals of lines 163, 212 and 242-251, as the merge
    loop reads them. *)

(** WherestheMatch (line 163): [channels or ["Not specified"]]. *)
Definition wtm_record (home away comp kickoff : pystr)
    (channels : list pystr) : SrcMatch :=
  mkSrcMatch (Some home) (Some away) (Some comp) (Some kickoff)
    (Some (match channels with
           | [] => [py "Not specified"]
           | _ :: _ => channels
           end)).

(** AllFootball (lines 242-251). [m] is one object of the match list,
    a key bound to [null] being bound to [None]; [m.get(k, d)] is
    [dict_get]. The literal has no key [channels]. *)
Definition dict_get (m : gmap string (option pystr)) (k : string)
    (d : pystr) : option pystr :=
  match m !! k with
  | Some v => v
  | None => Some d
  end.
Arguments dict_get m k%_string d.

Definition allfootball_record
    (m : gmap string (option pystr)) (kickoff : pystr) : SrcMatch :=
  mkSrcMatch (dict_get m "team_A_name" [])
             (dict_get m "team_B_name" [])
             (dict_get m "competition_name" (py "Unknown"))
             (Some kickoff) None.

(** DaddyLive, [ch_extract] (lines 197-204). An entry of a channel list
    is an object (with the string under each of its keys), a string, or
    something else. *)
Inductive channel_entry :=
  | EntryDict (c : gmap string pystr)
  | EntryStr (c : pystr)
  | EntryOther.

Fixpoint ch_extract (c_list : list channel_entry) : list pystr :=
  match c_list with
  | [] => []
  | EntryDict c :: c_list' =>
      default (py "Unknown") (c !! "channel_name"%string)
        :: ch_extract c_list'
  | EntryStr c :: c_list' => c :: ch_extract c_list'
  | EntryOther :: c_list' => ch_extract c_list'
  end.

(** ** The report (lines 288-298) *)








(** More sample data: a name in Cyrillic letters (Spartak), a fixture
    at the time of [arsenal_chelsea], a fixture whose home name is a
    stopword, and the row of WherestheMatch for Arsenal when it shows no
    channel image. *)
Definition spartak : pystr := [1057; 1087; 1072; 1088; 1090; 1072; 1082].
Definition fc_chelsea : OFMatch :=
  fixture "FC" "Chelsea" "Friendly" "2024-05-01 19:00".
Definition wtm_arsenal_no_image : SrcMatch :=
  wtm_record (py "Arsenal FC") (py "Chelsea FC") (py "Premier League")
    (py "2024-05-01 17:30") [].
Definition daddylive_chelsea : SrcMatch :=
  listing "Football Club" "Chelsea FC" "Friendly" [py "Sky"].

(** ** The program *)

Section Matches.

(** [unicodedata.normalize("NFKD", _)] *)
Variable nfkd : pystr → pystr.
(** [str.lower] *)
Variable str_lower : pystr → pystr.
(** [fuzz.ratio] and [fuzz.partial_ratio]; the scores are floats between
    0 and 100, modelled by the rationals they stand for. *)
Variable fuzz_ratio : pystr → pystr → Q.
Variable fuzz_partial_ratio : pystr → pystr → Q.
(** [datetime.strptime(_, "%Y-%m-%d %H:%M")]; [None] when it raises
    [ValueError]. *)
Variable strptime : pystr → option datetime.
(** The lines of [banned.txt] when the program starts; [None] when
    opening it raises [FileNotFoundError]. *)
Variable banned_txt : option (list pystr).

(** *** Filter rules *)

Definition load_banned_tournaments (file : option (list pystr))
  : gset pystr :=
  match file with
  | Some lines =>
      list_to_set
        ((λ line, str_lower (strip line))
           <$> filter (λ line, truthy (strip line)) lines)
  | None => ∅
  end.

Definition BANNED_TOURNAMENTS_LOWER : gset pystr :=
  load_banned_tournaments banned_txt.

Definition youth_markers : list pystr :=
  [py "u18"; py "u19"; py "u20"; py "u21"; py "u23"; py "youth";
   py "reserve"; py "reserves"; py "academy"].

Definition is_banned_match
    (home away : pystr) (competition : option pystr) : bool :=
  let lname := str_lower (or_empty competition) in
  if bool_decide (lname ∈ BANNED_TOURNAMENTS_LOWER) then true
  else if str_in (py "women") lname || str_in (py "nwsl") lname then true
  else if existsb (λ p, str_in p lname) youth_markers then true
  else if str_in (py "women") (str_lower home)
          || str_in (py "women") (str_lower away) then true
  else false.

(** *** Name helpers *)

Definition normalize_team_name (name : option pystr) : pystr :=
  let n :=
    str_lower (decode_utf8 (encode_ascii_ignore (nfkd (or_empty name)))) in
  let n := re_sub_non_letters n in
  let n := strip (re_sub_ws n) in
  join_space (filter (λ t, t ∉ stopwords) (split n)).

Definition names_equivalent (n1 n2 : option pystr) : bool :=
  let t1 := normalize_team_name n1 in
  let t2 := normalize_team_name n2 in
  if negb (truthy t1) || negb (truthy t2) then false
  else if bool_decide
            (list_to_set (split t1) ∩ list_to_set (split t2)
             ≠ (∅ : gset pystr)) then true
  else if Qle_bool 80 (fuzz_ratio t1 t2)
          || Qle_bool 80 (fuzz_partial_ratio t1 t2) then true
  else str_in t1 t2 || str_in t2 t1.

Definition teams_match (h1 a1 h2 a2 : option pystr) : bool :=
  names_equivalent h1 h2 && names_equivalent a1 a2.

(** *** Merge *)

(** The inner loop over [wtm + daddylive + allfootball] (lines 271-273);
    [channels] is the list being extended. *)
Fixpoint collect_channels
    (om : OFMatch) (srcs : list SrcMatch) (channels : list pystr)
  : list pystr :=
  match srcs with
  | [] => channels
  | src :: srcs' =>
      if teams_match (Some (home om)) (Some (away om))
                     (src_home src) (src_away src)
      then collect_channels om srcs'
             (channels ++ default [] (src_channels src))
      else collect_channels om srcs' channels
  end.

(** The deduplication loop (lines 275-279). *)
Fixpoint dedup_channels
    (channels : list pystr) (seen : gset pystr) (clean : list pystr)
  : list pystr :=
  match channels with
  | [] => clean
  | ch :: channels' =>
      if truthy ch && bool_decide (str_lower ch ∉ seen)
      then dedup_channels channels' ({[str_lower ch]} ∪ seen) (clean ++ [ch])
      else dedup_channels channels' seen clean
  end.

(** [clean or ["Not specified"]] *)
Definition or_not_specified (clean : list pystr) : list pystr :=
  match clean with
  | [] => [py "Not specified"]
  | _ :: _ => clean
  end.

(** The outer loop (lines 266-282); [merged] is the list being built. *)
Fixpoint merge_loop
    (onefootball : list OFMatch) (srcs : list SrcMatch)
    (merged : list MergedMatch) : list MergedMatch :=
  match onefootball with
  | [] => merged
  | om :: onefootball' =>
      if is_banned_match (home om) (away om) (competition om)
      then merge_loop onefootball' srcs merged
      else
        let channels := collect_channels om srcs [] in
        let clean := dedup_channels channels ∅ [] in
        merge_loop onefootball' srcs
          (merged ++ [mkMergedMatch om (or_not_specified clean)])
  end.

(** One pass of the loop body for a record that is not banned. *)
Definition clean_channels (om : OFMatch) (srcs : list SrcMatch)
  : list pystr :=
  dedup_channels (collect_channels om srcs []) ∅ [].

Definition merged_record (om : OFMatch) (srcs : list SrcMatch)
  : MergedMatch :=
  mkMergedMatch om (or_not_specified (clean_channels om srcs)).

(** [list.sort(key=...)] first computes the key of every element, in
    order; the first key function that raises ends the sort. *)
Fixpoint sort_keys (merged : list MergedMatch)
  : result (list (datetime * MergedMatch)) :=
  match merged with
  | [] => Ok []
  | m :: merged' =>
      match strptime (kickoff (primary m)) with
      | None => Raise ValueError
      | Some t =>
          match sort_keys merged' with
          | Raise e => Raise e
          | Ok keyed => Ok ((t, m) :: keyed)
          end
      end
  end.

(** The sort is stable and compares keys with [<] only. It is modelled
    by the insertion sort that puts each next element behind the
    elements already placed whose key is not greater. *)
Fixpoint insert_keyed
    (x : datetime * MergedMatch) (placed : list (datetime * MergedMatch))
  : list (datetime * MergedMatch) :=
  match placed with
  | [] => [x]
  | y :: placed' =>
      if datetime_ltb x.1 y.1 then x :: y :: placed'
      else y :: insert_keyed x placed'
  end.

Definition sort_keyed (keyed : list (datetime * MergedMatch))
  : list (datetime * MergedMatch) :=
  foldl (λ placed x, insert_keyed x placed) [] keyed.

Definition sort_by_kickoff (merged : list MergedMatch)
  : result (list MergedMatch) :=
  match sort_keys merged with
  | Raise e => Raise e
  | Ok keyed => Ok (snd <$> sort_keyed keyed)
  end.

(** [merge_matches] up to the sort (line 284): the records that the
    report is written from, or the exception that ends the run. The
    four arguments are what the four fetchers returned. *)
Definition merge_matches
    (onefootball : list OFMatch) (wtm daddylive allfootball : list SrcMatch)
  : result (list MergedMatch) :=
  sort_by_kickoff
    (merge_loop onefootball (wtm ++ daddylive ++ allfootball) []).

(** *** DaddyLive: one event (lines 206-212)

    The part of the loop body behind the parsing of the title: the
    record that is appended, or [None] when the event is passed over. *)
Definition daddylive_record (comp home away : pystr)
    (e_channels e_channels2 : list channel_entry) : option SrcMatch :=
  let ch1 := ch_extract e_channels in
  let ch2 := ch_extract e_channels2 in
  let all_ch := ch1 ++ ch2 in
  if match all_ch with [] => true | _ :: _ => false end
     || forallb (λ ch, str_in (py "extra stream") (str_lower ch)) all_ch
  then None
  else Some (mkSrcMatch (Some home) (Some away) (Some (strip comp)) None
               (Some all_ch)).


(** *** What is assumed of the Unicode library

    On a string of code points below 128, NFKD changes nothing and
    [str.lower] maps [A-Z] to [a-z]. *)
Hypothesis nfkd_ascii :
  ∀ s, forallb is_ascii s = true → nfkd s = s.
Hypothesis str_lower_ascii :
  ∀ s, forallb is_ascii s = true → str_lower s = ascii_lower <$> s.

(** *** Substrings *)

Lemma starts_with_spec p s : starts_with p s = true ↔ ∃ k, s = p ++ k.
Proof.
  revert s; induction p as [|a p IH]; intros s; simpl.
  - split; [intros _; by exists s | done].
  - destruct s as [|b s].
    + split; [done | intros [k Hk]; discriminate].
    + rewrite andb_true_iff, IH, N.eqb_eq. split.
      * intros [-> [k ->]]. by exists k.
      * intros [k Hk]. injection Hk as -> ->. eauto.
Qed.

Lemma str_in_spec needle hay : str_in needle hay = true ↔ substring needle hay.
Proof.
  unfold substring. induction hay as [|c hay IH]; simpl.
  - rewrite orb_false_r, starts_with_spec. split.
    + intros [k Hk]. exists [], k. done.
    + intros (pre & post & H). symmetry in H.
      apply app_eq_nil in H as [-> H]. apply app_eq_nil in H as [-> ->].
      by exists [].
  - rewrite orb_true_iff, IH, starts_with_spec. split.
    + intros [[k Hk] | (pre & post & ->)].
      * exists [], k. done.
      * exists (c :: pre), post. done.
    + intros (pre & post & H). destruct pre as [|c' pre]; simpl in H.
      * left. by exists post.
      * right. injection H as -> ->. eauto.
Qed.


(** *** The competition filter *)

Lemma elem_of_load_banned_tournaments lines e :
  e ∈ load_banned_tournaments (Some lines) ↔
  ∃ line, line ∈ lines ∧ strip line ≠ [] ∧ e = str_lower (strip line).
Proof.
  unfold load_banned_tournaments.
  rewrite elem_of_list_to_set, list_elem_of_fmap. split.
  - intros (line & -> & Hin). apply list_elem_of_filter in Hin as [Ht Hin].
    exists line. split; [done |]. split; [| done].
    by destruct (strip line).
  - intros (line & Hin & Hne & ->). exists line. split; [done |].
    apply list_elem_of_filter. split; [| done].
    by destruct (strip line).
Qed.

(** C4: [is_banned_match] answers [True] exactly when the lower-cased
    competition is the lower-cased stripped form of a non-blank line of
    [banned.txt] (no line at all when the file is missing), or contains
    [women] or [nwsl], or contains one of the nine age-grade and reserve
    markers [u18], [u19], [u20], [u21], [u23], [youth], [reserve],
    [reserves], [academy], or when a lower-cased team name contains
    [women]. *)
Theorem is_banned_match_spec (home away : pystr) (competition : option pystr) :
  load_banned_tournaments None = ∅ ∧
  (is_banned_match home away competition = true ↔
     (∃ lines line, banned_txt = Some lines ∧ line ∈ lines ∧
        strip line ≠ [] ∧
        str_lower (strip line) = str_lower (or_empty competition))
     ∨ substring (py "women") (str_lower (or_empty competition))
     ∨ substring (py "nwsl") (str_lower (or_empty competition))
     ∨ (substring (py "u18") (str_lower (or_empty competition))
        ∨ substring (py "u19") (str_lower (or_empty competition))
        ∨ substring (py "u20") (str_lower (or_empty competition))
        ∨ substring (py "u21") (str_lower (or_empty competition))
        ∨ substring (py "u23") (str_lower (or_empty competition))
        ∨ substring (py "youth") (str_lower (or_empty competition))
        ∨ substring (py "reserve") (str_lower (or_empty competition))
        ∨ substring (py "reserves") (str_lower (or_empty competition))
        ∨ substring (py "academy") (str_lower (or_empty competition)))
     ∨ substring (py "women") (str_lower home)
     ∨ substring (py "women") (str_lower away)).
Proof.
  split; [done |].
  unfold is_banned_match, BANNED_TOURNAMENTS_LOWER.
  set (lname := str_lower (or_empty competition)).
  assert (Hfile : lname ∈ load_banned_tournaments banned_txt ↔
            ∃ lines line, banned_txt = Some lines ∧ line ∈ lines ∧
              strip line ≠ [] ∧ str_lower (strip line) = lname).
  { destruct banned_txt as [lines|].
    - rewrite elem_of_load_banned_tournaments. split.
      + intros (line & ? & ? & ->). by exists lines, line.
      + intros (? & line & [= <-] & ? & ? & <-). by exists line.
    - split; [by intros ?%not_elem_of_empty |].
      by intros (? & ? & ? & _). }
  assert (Hmark : existsb (λ p, str_in p lname) youth_markers = true ↔
            substring (py "u18") lname ∨ substring (py "u19") lname
            ∨ substring (py "u20") lname ∨ substring (py "u21") lname
            ∨ substring (py "u23") lname ∨ substring (py "youth") lname
            ∨ substring (py "reserve") lname
            ∨ substring (py "reserves") lname
            ∨ substring (py "academy") lname).
  { unfold youth_markers. cbn [existsb].
    rewrite (orb_false_r (str_in (py "academy") lname)).
    by rewrite !orb_true_iff, !str_in_spec. }
  rewrite <- Hfile, <- Hmark, <- !str_in_spec.
  case_bool_decide; [split; auto |].
  destruct (str_in (py "women") lname); cbn [orb]; [split; auto |].
  destruct (str_in (py "nwsl") lname); cbn [orb]; [split; auto |].
  destruct (existsb _ youth_markers); cbn [orb]; [split; auto 6 |].
  destruct (str_in (py "women") (str_lower home)); cbn [orb];
    [split; auto 7 |].
  destruct (str_in (py "women") (str_lower away)); cbn [orb];
    [split; auto 8 |].
  split; [done |]. intros [?|[?|[?|[?|[?|?]]]]]; done.
Qed.

(** *** The name matcher *)

Lemma share_token_spec (l1 l2 : list pystr) :
  list_to_set l1 ∩ list_to_set l2 ≠ (∅ : gset pystr) ↔
  ∃ tok, tok ∈ l1 ∧ tok ∈ l2.
Proof.
  split.
  - intros [tok Htok]%set_choose_L. exists tok.
    apply elem_of_intersection in Htok as [H1 H2].
    by rewrite !elem_of_list_to_set in H1, H2.
  - intros (tok & H1 & H2) Hempty.
    apply (not_elem_of_empty (C:=gset pystr) tok). rewrite <- Hempty.
    apply elem_of_intersection. by rewrite !elem_of_list_to_set.
Qed.

Lemma truthy_false s : truthy s = false ↔ s = [].
Proof. by destruct s. Qed.

Lemma truthy_true s : truthy s = true ↔ s ≠ [].
Proof. by destruct s. Qed.

Lemma names_equivalent_empty n1 n2 :
  normalize_team_name n1 = [] ∨ normalize_team_name n2 = [] →
  names_equivalent n1 n2 = false.
Proof.
  unfold names_equivalent. intros [-> | ->]; simpl; [done |].
  by rewrite orb_true_r.
Qed.

Lemma names_equivalent_true_iff n1 n2 :
  normalize_team_name n1 ≠ [] → normalize_team_name n2 ≠ [] →
  names_equivalent n1 n2 = true ↔
    (∃ tok, tok ∈ split (normalize_team_name n1) ∧
            tok ∈ split (normalize_team_name n2))
    ∨ (80 <= fuzz_ratio (normalize_team_name n1) (normalize_team_name n2))%Q
    ∨ (80 <= fuzz_partial_ratio (normalize_team_name n1)
                                (normalize_team_name n2))%Q
    ∨ substring (normalize_team_name n1) (normalize_team_name n2)
    ∨ substring (normalize_team_name n2) (normalize_team_name n1).
Proof.
  intros H1%truthy_true H2%truthy_true. unfold names_equivalent.
  cbv zeta. rewrite H1, H2. simpl.
  rewrite <- share_token_spec, <- !Qle_bool_iff, <- !str_in_spec.
  case_bool_decide; [split; auto |].
  destruct (Qle_bool 80 (fuzz_ratio _ _)); cbn [orb]; [split; auto |].
  destruct (Qle_bool 80 (fuzz_partial_ratio _ _)); cbn [orb];
    [split; auto 6 |].
  rewrite orb_true_iff. split; [intros [?|?]; auto 6 |].
  intros [?|[?|[?|[?|?]]]]; auto; done.
Qed.

(** C1: [names_equivalent] answers [False] when a normalised name is
    empty; otherwise it answers [True] exactly when the two normalised
    names have a token in common, or one of the two fuzzy scores is at
    least 80, or one is a substring of the other. *)
Theorem names_equivalent_spec (n1 n2 : option pystr) :
  (normalize_team_name n1 = [] ∨ normalize_team_name n2 = [] →
   names_equivalent n1 n2 = false) ∧
  (normalize_team_name n1 ≠ [] → normalize_team_name n2 ≠ [] →
   (names_equivalent n1 n2 = true ↔
      (∃ tok, tok ∈ split (normalize_team_name n1) ∧
              tok ∈ split (normalize_team_name n2))
      ∨ ((80 <= fuzz_ratio (normalize_team_name n1)
                           (normalize_team_name n2))%Q
         ∨ (80 <= fuzz_partial_ratio (normalize_team_name n1)
                                     (normalize_team_name n2))%Q)
      ∨ (substring (normalize_team_name n1) (normalize_team_name n2)
         ∨ substring (normalize_team_name n2) (normalize_team_name n1)))).
Proof.
  split; [apply names_equivalent_empty |].
  intros H1 H2. rewrite (names_equivalent_true_iff _ _ H1 H2). tauto.
Qed.

(** *** Words and whitespace *)

Lemma is_lower_az_not_space c : is_lower_az c = true → is_space c = false.
Proof.
  unfold is_lower_az, is_space. intros [H1 H2]%andb_true_iff.
  apply N.leb_le in H1, H2.
  repeat (apply orb_false_iff; split);
    try (apply N.eqb_neq; lia); apply andb_false_iff;
    (left; apply N.leb_gt; lia) || (right; apply N.leb_gt; lia).
Qed.

Lemma is_lower_az_ascii c : is_lower_az c = true → is_ascii c = true.
Proof.
  unfold is_lower_az, is_ascii. intros [H1 H2]%andb_true_iff.
  apply N.leb_le in H1, H2. apply N.ltb_lt. lia.
Qed.

Lemma is_lower_az_lower c : is_lower_az c = true → ascii_lower c = c.
Proof.
  unfold is_lower_az, ascii_lower, is_upper_AZ. intros [H1 H2]%andb_true_iff.
  apply N.leb_le in H1, H2.
  replace (c <=? 90) with false by (symmetry; apply N.leb_gt; lia).
  by rewrite andb_false_r.
Qed.

Lemma letter_or_space_cases c :
  letter_or_space c = true → is_lower_az c = true ∨ c = SPACE.
Proof.
  unfold letter_or_space. intros [H | H%N.eqb_eq]%orb_true_iff; auto.
Qed.

Lemma letter_or_space_ascii c : letter_or_space c = true → is_ascii c = true.
Proof.
  intros [H | ->]%letter_or_space_cases; [by apply is_lower_az_ascii | done].
Qed.

Lemma letter_or_space_lower c : letter_or_space c = true → ascii_lower c = c.
Proof.
  intros [H | ->]%letter_or_space_cases; [by apply is_lower_az_lower | done].
Qed.

Lemma letter_not_space c :
  letter_or_space c = true → is_space c = false → is_lower_az c = true.
Proof. intros [H | ->]%letter_or_space_cases; [done | discriminate]. Qed.

Lemma split_from_word cur w s :
  Forall (λ c, is_space c = false) w →
  split_from cur (w ++ s) = split_from (cur ++ w) s.
Proof.
  intros Hw. revert cur. induction Hw as [|c w Hc Hw IH]; intros cur; simpl.
  - by rewrite app_nil_r.
  - rewrite Hc, IH. by rewrite <- app_assoc.
Qed.

Lemma split_from_words cur s :
  Forall (λ c, is_space c = false) cur →
  Forall word (split_from cur s).
Proof.
  revert cur. induction s as [|c s IH]; intros cur Hcur; simpl.
  - destruct cur as [|d cur]; simpl; [constructor |].
    apply Forall_singleton. by split.
  - destruct (is_space c) eqn:Hc.
    + destruct cur as [|d cur]; simpl; [by apply IH |].
      apply Forall_cons. split; [by split | by apply IH].
    + apply IH. apply Forall_app. split; [done |].
      by apply Forall_singleton.
Qed.

Lemma split_from_Forall (P : N → Prop) cur s :
  Forall P cur → Forall P s → Forall (Forall P) (split_from cur s).
Proof.
  revert cur. induction s as [|c s IH]; intros cur Hcur Hs; simpl.
  - destruct cur as [|d cur]; simpl; [constructor |].
    by apply Forall_singleton.
  - apply Forall_cons in Hs as [Hc Hs]. destruct (is_space c).
    + destruct cur as [|d cur]; simpl; [by apply IH |].
      apply Forall_cons. split; [done | by apply IH].
    + apply IH; [| done]. apply Forall_app. split; [done |].
      by apply Forall_singleton.
Qed.

Lemma split_word w : word w → split w = [w].
Proof.
  intros [Hne Hw]. unfold split.
  rewrite <- (app_nil_r w) at 1. rewrite split_from_word by done.
  simpl. by destruct w.
Qed.

Lemma split_word_space w s :
  word w → split (w ++ SPACE :: s) = w :: split s.
Proof.
  intros [Hne Hw]. unfold split. rewrite split_from_word by done.
  simpl. by destruct w.
Qed.

Lemma split_join_space ts : Forall word ts → split (join_space ts) = ts.
Proof.
  induction 1 as [|t ts Ht Hts IH]; [done |].
  destruct ts as [|t' ts].
  - simpl. by apply split_word.
  - change (join_space (t :: t' :: ts))
      with (t ++ SPACE :: join_space (t' :: ts)).
    by rewrite split_word_space, IH.
Qed.

Lemma split_from_re_sub_ws in_run cur s :
  (in_run = true → cur = []) →
  split_from cur (re_sub_ws_from in_run s) = split_from cur s.
Proof.
  revert in_run cur. induction s as [|c s IH]; intros in_run cur Hrun; [done |].
  simpl. destruct (is_space c) eqn:Hc.
  - destruct in_run.
    + rewrite (Hrun eq_refl). simpl. by apply IH.
    + simpl. destruct (truthy cur); by rewrite IH.
  - simpl. rewrite Hc. by apply IH.
Qed.

Lemma split_lstrip s : split (lstrip s) = split s.
Proof.
  unfold split. induction s as [|c s IH]; [done |].
  simpl. destruct (is_space c) eqn:Hc; [done |].
  simpl. by rewrite Hc.
Qed.

Lemma split_from_rstrip cur s :
  split_from cur (rstrip s) = split_from cur s.
Proof.
  revert cur. induction s as [|c s IH]; intros cur; [done |].
  simpl. destruct (rstrip s) as [|d r] eqn:Hr.
  - destruct (is_space c) eqn:Hc; simpl.
    + rewrite <- (IH []). simpl. by destruct (truthy cur).
    + rewrite Hc. by rewrite <- IH.
  - simpl. destruct (is_space c); [| by rewrite <- IH].
    by rewrite <- IH.
Qed.

Lemma split_strip s : split (strip s) = split s.
Proof.
  unfold strip, split at 1. by rewrite split_from_rstrip, split_lstrip.
Qed.

Lemma split_re_sub_ws s : split (re_sub_ws s) = split s.
Proof. by apply split_from_re_sub_ws. Qed.

(** *** The shape of a normalised name *)

Lemma forallb_Forall (f : N → bool) s :
  Forall (λ c, f c = true) s → forallb f s = true.
Proof. induction 1 as [|c s Hc _ IH]; simpl; [done |]. by rewrite Hc, IH. Qed.

Lemma re_sub_non_letters_clean n :
  Forall (λ c, letter_or_space c = true) (re_sub_non_letters n).
Proof.
  unfold re_sub_non_letters. apply Forall_fmap, Forall_forall.
  intros c _. simpl. fold (letter_or_space c).
  by destruct (letter_or_space c) eqn:Hc.
Qed.

Lemma re_sub_ws_from_clean in_run s :
  Forall (λ c, letter_or_space c = true) s →
  Forall (λ c, letter_or_space c = true) (re_sub_ws_from in_run s).
Proof.
  intros Hs. revert in_run.
  induction Hs as [|c s Hc Hs IH]; intros in_run; simpl; [done |].
  destruct (is_space c); [destruct in_run |]; auto.
Qed.

Lemma lstrip_Forall (P : N → Prop) s : Forall P s → Forall P (lstrip s).
Proof.
  induction 1 as [|c s Hc Hs IH]; simpl; [done |].
  destruct (is_space c); auto.
Qed.

Lemma rstrip_Forall (P : N → Prop) s : Forall P s → Forall P (rstrip s).
Proof.
  induction 1 as [|c s Hc Hs IH]; simpl; [done |].
  destruct (rstrip s); [destruct (is_space c) |]; auto.
Qed.

Lemma join_space_clean ts :
  Forall (Forall (λ c, is_lower_az c = true)) ts →
  Forall (λ c, letter_or_space c = true) (join_space ts).
Proof.
  assert (Hword : ∀ t, Forall (λ c, is_lower_az c = true) t →
                       Forall (λ c, letter_or_space c = true) t).
  { intros t Ht. eapply Forall_impl; [exact Ht |]. intros c Hc.
    unfold letter_or_space. by rewrite Hc. }
  induction 1 as [|t ts Ht Hts IH]; [done |].
  destruct ts as [|t' ts]; [by apply Hword |].
  change (join_space (t :: t' :: ts))
    with (t ++ SPACE :: join_space (t' :: ts)).
  apply Forall_app. split; [by apply Hword |].
  apply Forall_cons. by split.
Qed.

(** The tokens that [normalize_team_name] joins are words over [a-z],
    none of them a stopword. *)
Lemma normalize_tokens n :
  let ts :=
    filter (λ t, t ∉ stopwords)
      (split (strip (re_sub_ws (re_sub_non_letters n)))) in
  Forall word ts ∧ Forall (Forall (λ c, is_lower_az c = true)) ts ∧
  Forall (λ t, t ∉ stopwords) ts.
Proof.
  intros ts.
  assert (Hclean : Forall (λ c, letter_or_space c = true)
                     (strip (re_sub_ws (re_sub_non_letters n)))).
  { apply rstrip_Forall, lstrip_Forall, re_sub_ws_from_clean,
      re_sub_non_letters_clean. }
  assert (Hw : Forall word ts).
  { apply Forall_forall. intros t [_ Ht]%list_elem_of_filter.
    pose proof (split_from_words []
                  (strip (re_sub_ws (re_sub_non_letters n)))
                  (Forall_nil_2 _)) as Hall.
    rewrite Forall_forall in Hall. by apply Hall. }
  split; [done |]. split.
  - apply Forall_forall. intros t Ht.
    assert (Hin : t ∈ split (strip (re_sub_ws (re_sub_non_letters n))))
      by (by apply list_elem_of_filter in Ht as [_ ?]).
    pose proof (split_from_Forall _ [] _ (Forall_nil_2 _) Hclean) as Hall.
    rewrite Forall_forall in Hall. specialize (Hall t Hin).
    rewrite Forall_forall in Hw. destruct (Hw t Ht) as [_ Hns].
    rewrite Forall_forall in Hall, Hns. apply Forall_forall.
    intros c Hc. apply letter_not_space; auto.
  - apply Forall_forall. intros t Ht.
    by apply list_elem_of_filter in Ht as [? _].
Qed.

Lemma clean_identity s :
  Forall (λ c, letter_or_space c = true) s →
  re_sub_non_letters
    (str_lower (decode_utf8 (encode_ascii_ignore (nfkd s)))) = s.
Proof using Type + nfkd_ascii + str_lower_ascii.
  intros Hs.
  assert (Hascii : forallb is_ascii s = true).
  { apply forallb_Forall. eapply Forall_impl; [exact Hs |].
    apply letter_or_space_ascii. }
  rewrite nfkd_ascii by done. unfold decode_utf8, encode_ascii_ignore.
  assert (filter (λ c, is_ascii c) s = s) as ->.
  { clear Hascii. induction Hs as [|c s Hc Hs IH]; [done |].
    rewrite filter_cons_True by (by rewrite (letter_or_space_ascii c)).
    by rewrite IH. }
  rewrite str_lower_ascii by done. unfold re_sub_non_letters.
  rewrite <- list_fmap_compose. clear Hascii.
  induction Hs as [|c s Hc Hs IH]; [done |].
  rewrite fmap_cons, IH. f_equal. simpl.
  rewrite (letter_or_space_lower c Hc). fold (letter_or_space c).
  by rewrite Hc.
Qed.

(** C3: normalising a normalised name changes nothing. *)
Theorem normalize_idempotent (x : option pystr) :
  normalize_team_name (Some (normalize_team_name x)) = normalize_team_name x.
Proof using Type + nfkd_ascii + str_lower_ascii.
  unfold normalize_team_name at 2 3. cbv zeta.
  set (n := str_lower _).
  destruct (normalize_tokens n) as (Hw & Haz & Hstop).
  set (ts := filter _ (split _)) in *.
  unfold normalize_team_name. cbv zeta. simpl or_empty.
  rewrite clean_identity by (by apply join_space_clean).
  rewrite split_strip, split_re_sub_ws, split_join_space by done.
  f_equal. clear Hw Haz.
  induction Hstop as [|t l Ht Hl IH]; [done |].
  by rewrite filter_cons_True, IH.
Qed.

(** *** Home against home, away against away *)

Lemma normalize_team_name_ascii s :
  forallb is_ascii s = true →
  normalize_team_name (Some s) =
  join_space
    (filter (λ t, t ∉ stopwords)
       (split (strip (re_sub_ws (re_sub_non_letters (ascii_lower <$> s)))))).
Proof using Type + nfkd_ascii + str_lower_ascii.
  intros Hs. unfold normalize_team_name. cbv zeta. simpl or_empty.
  rewrite nfkd_ascii by done. unfold decode_utf8, encode_ascii_ignore.
  assert (filter (λ c, is_ascii c) s = s) as ->.
  { induction s as [|c s IH]; [done |]. simpl in Hs.
    apply andb_true_iff in Hs as [Hc Hs].
    rewrite filter_cons_True by (by rewrite Hc). by rewrite IH. }
  by rewrite str_lower_ascii.
Qed.

(** C2: [teams_match] holds exactly when the two home names are
    equivalent and the two away names are equivalent. With a scorer that
    puts [a] against [b] below 80 on both scores, the teams [A], [B]
    match themselves and do not match with the sides swapped. *)
Theorem teams_match_spec :
  (∀ h1 a1 h2 a2,
     teams_match h1 a1 h2 a2 = true ↔
     names_equivalent h1 h2 = true ∧ names_equivalent a1 a2 = true) ∧
  (¬ (80 <= fuzz_ratio (py "a") (py "b"))%Q →
   ¬ (80 <= fuzz_partial_ratio (py "a") (py "b"))%Q →
   teams_match (Some (py "A")) (Some (py "B"))
               (Some (py "A")) (Some (py "B")) = true ∧
   teams_match (Some (py "A")) (Some (py "B"))
               (Some (py "B")) (Some (py "A")) = false).
Proof using Type + nfkd_ascii + str_lower_ascii.
  split.
  { intros. unfold teams_match. apply andb_true_iff. }
  intros Hr Hp.
  assert (HA : normalize_team_name (Some (py "A")) = py "a").
  { rewrite normalize_team_name_ascii by reflexivity. by vm_compute. }
  assert (HB : normalize_team_name (Some (py "B")) = py "b").
  { rewrite normalize_team_name_ascii by reflexivity. by vm_compute. }
  assert (Hsame : ∀ n s, normalize_team_name n = s → s ≠ [] →
            word s → names_equivalent n n = true).
  { intros n s Hn Hne Hw. apply names_equivalent_true_iff.
    - by rewrite Hn.
    - by rewrite Hn.
    - left. exists s. rewrite Hn, split_word by done.
      split; apply list_elem_of_here. }
  assert (Hwa : word (py "a")) by (split; [done | by repeat constructor]).
  assert (Hwb : word (py "b")) by (split; [done | by repeat constructor]).
  unfold teams_match. split.
  - rewrite (Hsame _ _ HA), (Hsame _ _ HB); done.
  - apply andb_false_iff. left. apply not_true_iff_false.
    rewrite names_equivalent_true_iff by (by rewrite ?HA, ?HB).
    rewrite HA, HB, !split_word by done.
    intros [(tok & H1 & H2) | [? | [? | [H | H]]]]; [| done | done | |].
    + apply list_elem_of_singleton in H1, H2. by subst.
    + apply str_in_spec in H. by vm_compute in H.
    + apply str_in_spec in H. by vm_compute in H.
Qed.

(** *** The deduplication loop *)

Lemma dedup_channels_clean l seen clean :
  dedup_channels l seen clean = clean ++ dedup_channels l seen [].
Proof.
  revert seen clean. induction l as [|ch l IH]; intros seen clean; simpl.
  - by rewrite app_nil_r.
  - destruct (truthy ch && bool_decide (str_lower ch ∉ seen)); [| done].
    rewrite (IH _ (clean ++ [ch])), (IH _ [ch]). by rewrite <- app_assoc.
Qed.

Lemma dedup_channels_cons ch l seen :
  dedup_channels (ch :: l) seen [] =
  if truthy ch && bool_decide (str_lower ch ∉ seen)
  then ch :: dedup_channels l ({[str_lower ch]} ∪ seen) []
  else dedup_channels l seen [].
Proof.
  simpl. destruct (truthy ch && bool_decide (str_lower ch ∉ seen)); [| done].
  by rewrite dedup_channels_clean.
Qed.

Lemma kept_iff (ch : pystr) (seen : gset pystr) :
  truthy ch && bool_decide (str_lower ch ∉ seen) = true ↔
  ch ≠ [] ∧ str_lower ch ∉ seen.
Proof. by rewrite andb_true_iff, truthy_true, bool_decide_eq_true. Qed.

Lemma dedup_channels_sublist l seen :
  dedup_channels l seen [] `sublist_of` l.
Proof.
  revert seen. induction l as [|ch l IH]; intros seen; [done |].
  rewrite dedup_channels_cons.
  destruct (truthy ch && bool_decide (str_lower ch ∉ seen)).
  - by apply sublist_skip.
  - by apply sublist_cons.
Qed.

Lemma dedup_channels_elem l seen o :
  o ∈ dedup_channels l seen [] → o ≠ [] ∧ str_lower o ∉ seen.
Proof.
  revert seen. induction l as [|ch l IH]; intros seen.
  - by intros ?%elem_of_nil.
  - rewrite dedup_channels_cons.
    destruct (truthy ch && bool_decide (str_lower ch ∉ seen)) eqn:Hk.
    + apply kept_iff in Hk. intros [-> | Ho]%elem_of_cons; [done |].
      apply IH in Ho as [? Ho]. split; [done |].
      intros Hs. apply Ho, elem_of_union. by right.
    + apply IH.
Qed.

Lemma dedup_channels_NoDup l seen :
  NoDup (str_lower <$> dedup_channels l seen []).
Proof.
  revert seen. induction l as [|ch l IH]; intros seen; [constructor |].
  rewrite dedup_channels_cons.
  destruct (truthy ch && bool_decide (str_lower ch ∉ seen)); [| apply IH].
  rewrite fmap_cons. apply NoDup_cons. split; [| apply IH].
  intros (o & Heq & Ho)%list_elem_of_fmap.
  apply dedup_channels_elem in Ho as [_ Ho]. rewrite <- Heq in Ho.
  apply Ho, elem_of_union. left. by apply elem_of_singleton.
Qed.

Lemma dedup_channels_covers l seen ch :
  ch ∈ l → ch ≠ [] →
  str_lower ch ∈ seen ∨
  ∃ o, o ∈ dedup_channels l seen [] ∧ str_lower o = str_lower ch.
Proof.
  revert seen. induction l as [|c l IH]; intros seen Hin Hne.
  - by apply elem_of_nil in Hin.
  - rewrite dedup_channels_cons.
    destruct (truthy c && bool_decide (str_lower c ∉ seen)) eqn:Hk.
    + apply elem_of_cons in Hin as [-> | Hin].
      * right. exists c. split; [apply list_elem_of_here | done].
      * destruct (IH ({[str_lower c]} ∪ seen) Hin Hne)
          as [[Heq%elem_of_singleton | Hs]%elem_of_union | (o & Ho & Heq)].
        -- right. exists c. split; [apply list_elem_of_here | done].
        -- by left.
        -- right. exists o. split; [by apply list_elem_of_further | done].
    + apply elem_of_cons in Hin as [-> | Hin]; [| by apply IH].
      left. apply not_true_iff_false in Hk. rewrite kept_iff in Hk.
      destruct (decide (str_lower c ∈ seen)); [done |]. by destruct Hk.
Qed.

Lemma dedup_channels_first pre ch post seen :
  ch ≠ [] → str_lower ch ∉ seen →
  (∀ p, p ∈ pre → p ≠ [] → str_lower p ≠ str_lower ch) →
  ∃ rest, dedup_channels (pre ++ ch :: post) seen [] =
          dedup_channels pre seen [] ++ ch :: rest.
Proof.
  intros Hne. revert seen.
  induction pre as [|p pre IH]; intros seen Hseen Hpre.
  - simpl app. rewrite dedup_channels_cons.
    assert (truthy ch && bool_decide (str_lower ch ∉ seen) = true) as ->
      by (by apply kept_iff).
    eauto.
  - rewrite <- app_comm_cons, !dedup_channels_cons.
    destruct (truthy p && bool_decide (str_lower p ∉ seen)) eqn:Hk.
    + apply kept_iff in Hk as [Hp _].
      destruct (IH ({[str_lower p]} ∪ seen)) as [rest ->].
      * assert (str_lower p ≠ str_lower ch)
          by (apply Hpre; [apply list_elem_of_here | done]).
        intros [?%elem_of_singleton | ?]%elem_of_union; congruence.
      * intros q Hq. apply Hpre. by apply list_elem_of_further.
      * by exists rest.
    + apply IH; [done |]. intros q Hq. apply Hpre.
      by apply list_elem_of_further.
Qed.

Lemma dedup_channels_repeat pre ch post seen :
  ch = [] ∨ str_lower ch ∈ seen ∨
    (∃ p, p ∈ pre ∧ p ≠ [] ∧ str_lower p = str_lower ch) →
  dedup_channels (pre ++ ch :: post) seen [] =
  dedup_channels (pre ++ post) seen [].
Proof.
  revert seen. induction pre as [|p pre IH]; intros seen Hrep.
  - simpl app. rewrite dedup_channels_cons.
    destruct (truthy ch && bool_decide (str_lower ch ∉ seen)) eqn:Hk; [| done].
    apply kept_iff in Hk as [Hne Hs].
    destruct Hrep as [? | [? | (p & []%elem_of_nil & _)]]; done.
  - rewrite <- !app_comm_cons, !dedup_channels_cons.
    destruct (truthy p && bool_decide (str_lower p ∉ seen)) eqn:Hk.
    + f_equal. apply IH. destruct Hrep as [? | [? | (q & Hq & Hne & Heq)]].
      * by left.
      * right. left. apply elem_of_union. by right.
      * apply elem_of_cons in Hq as [-> | Hq].
        -- right. left. rewrite Heq. apply elem_of_union. left.
           by apply elem_of_singleton.
        -- right. right. by exists q.
    + apply IH. destruct Hrep as [? | [? | (q & Hq & Hne & Heq)]].
      * by left.
      * by right; left.
      * apply elem_of_cons in Hq as [-> | Hq].
        -- right. left. apply not_true_iff_false in Hk.
           rewrite kept_iff in Hk. rewrite <- Heq.
           destruct (decide (str_lower p ∈ seen)); [done |]. by destruct Hk.
        -- right. right. by exists q.
Qed.

(** *** The order of datetimes *)

Lemma datetime_ltb_spec a b :
  datetime_ltb a b = true ↔
  (year a < year b ∨ (year a = year b ∧
  (month a < month b ∨ (month a = month b ∧
  (day a < day b ∨ (day a = day b ∧
  (hour a < hour b ∨ (hour a = hour b ∧ minute a < minute b)))))))).
Proof.
  unfold datetime_ltb.
  repeat first [ rewrite orb_true_iff | rewrite andb_true_iff
               | rewrite N.ltb_lt | rewrite N.eqb_eq ].
  done.
Qed.

Lemma datetime_ltb_irrefl a : datetime_ltb a a = false.
Proof. apply not_true_iff_false. rewrite datetime_ltb_spec. lia. Qed.

Lemma datetime_ltb_asym a b :
  datetime_ltb a b = true → datetime_ltb b a = false.
Proof.
  intros H. apply not_true_iff_false. rewrite datetime_ltb_spec in *. lia.
Qed.

Lemma datetime_ltb_trans a b c :
  datetime_ltb a b = true → datetime_ltb b c = true →
  datetime_ltb a c = true.
Proof. rewrite !datetime_ltb_spec. lia. Qed.

Lemma datetime_ltb_total a b :
  datetime_ltb a b = false → datetime_ltb b a = false → a = b.
Proof.
  intros H1%not_true_iff_false H2%not_true_iff_false.
  rewrite datetime_ltb_spec in H1, H2.
  destruct a, b; simpl in *. f_equal; lia.
Qed.

(** *** The inner and the outer loop *)

Lemma collect_channels_acc om srcs acc :
  collect_channels om srcs acc = acc ++ collect_channels om srcs [].
Proof.
  revert acc. induction srcs as [|src srcs IH]; intros acc; simpl.
  - by rewrite app_nil_r.
  - destruct (teams_match _ _ _ _); [| done].
    rewrite (IH (acc ++ _)), (IH (default [] _)). by rewrite <- app_assoc.
Qed.

Lemma collect_channels_elem om srcs ch :
  ch ∈ collect_channels om srcs [] ↔
  ∃ src, src ∈ srcs ∧
    teams_match (Some (home om)) (Some (away om))
                (src_home src) (src_away src) = true ∧
    ch ∈ default [] (src_channels src).
Proof.
  induction srcs as [|src srcs IH]; simpl.
  - split; [by intros ?%elem_of_nil |].
    by intros (? & ?%elem_of_nil & _).
  - destruct (teams_match _ _ (src_home src) _) eqn:Hm.
    + rewrite collect_channels_acc, elem_of_app, IH. split.
      * intros [Hch | (s' & Hs' & Hm' & Hch)].
        -- exists src. split; [apply list_elem_of_here | done].
        -- exists s'. split; [by apply list_elem_of_further | done].
      * intros (s' & [-> | Hs']%elem_of_cons & Hm' & Hch); [by left |].
        right. by exists s'.
    + rewrite IH. split.
      * intros (s' & Hs' & Hm' & Hch).
        exists s'. split; [by apply list_elem_of_further | done].
      * intros (s' & [-> | Hs']%elem_of_cons & Hm' & Hch); [congruence |].
        by exists s'.
Qed.

Lemma merge_loop_acc ofs srcs merged :
  merge_loop ofs srcs merged = merged ++ merge_loop ofs srcs [].
Proof.
  revert merged. induction ofs as [|om ofs IH]; intros merged; simpl.
  - by rewrite app_nil_r.
  - destruct (is_banned_match _ _ _); [done |].
    rewrite (IH (merged ++ _)), (IH [_]). by rewrite <- app_assoc.
Qed.

Lemma merge_loop_cons om ofs srcs :
  merge_loop (om :: ofs) srcs [] =
  if is_banned_match (home om) (away om) (competition om)
  then merge_loop ofs srcs []
  else merged_record om srcs :: merge_loop ofs srcs [].
Proof.
  simpl. destruct (is_banned_match _ _ _); [done |].
  by rewrite merge_loop_acc.
Qed.

Lemma merge_loop_elem ofs srcs m :
  m ∈ merge_loop ofs srcs [] ↔
  ∃ om, om ∈ ofs ∧
    is_banned_match (home om) (away om) (competition om) = false ∧
    m = merged_record om srcs.
Proof.
  induction ofs as [|om ofs IH].
  - split; [by intros ?%elem_of_nil |].
    by intros (? & ?%elem_of_nil & _).
  - rewrite merge_loop_cons.
    destruct (is_banned_match _ _ (competition om)) eqn:Hb.
    + rewrite IH. split.
      * intros (om' & Hin & Hb' & ->).
        exists om'. split; [by apply list_elem_of_further | done].
      * intros (om' & [-> | Hin]%elem_of_cons & Hb' & ->); [congruence |].
        by exists om'.
    + rewrite elem_of_cons, IH. split.
      * intros [-> | (om' & Hin & Hb' & ->)].
        -- exists om. split; [apply list_elem_of_here | done].
        -- exists om'. split; [by apply list_elem_of_further | done].
      * intros (om' & [-> | Hin]%elem_of_cons & Hb' & ->); [by left |].
        right. by exists om'.
Qed.

(** *** The sort *)

Lemma sort_keys_Ok merged keyed :
  sort_keys merged = Ok keyed →
  snd <$> keyed = merged ∧
  Forall (λ km, strptime (kickoff (primary km.2)) = Some km.1) keyed.
Proof.
  revert keyed. induction merged as [|m merged IH]; intros keyed; simpl.
  - intros [= <-]. by split.
  - destruct (strptime (kickoff (primary m))) as [t|] eqn:Ht; [| done].
    destruct (sort_keys merged) as [keyed'|]; [| done].
    intros [= <-]. destruct (IH keyed' eq_refl) as [Hsnd Hkeys].
    split; [by rewrite fmap_cons, Hsnd |].
    apply Forall_cons. by split.
Qed.

Lemma sort_keys_Raise merged :
  (∃ m, m ∈ merged ∧ strptime (kickoff (primary m)) = None) →
  sort_keys merged = Raise ValueError.
Proof.
  induction merged as [|m merged IH]; simpl.
  - by intros (? & ?%elem_of_nil & _).
  - intros (m' & [-> | Hin]%elem_of_cons & Hm').
    + by rewrite Hm'.
    + destruct (strptime (kickoff (primary m))); [| done].
      rewrite IH; [done |]. by exists m'.
Qed.

Lemma sort_keys_parsed merged :
  Forall (λ m, is_Some (strptime (kickoff (primary m)))) merged →
  ∃ keyed, sort_keys merged = Ok keyed.
Proof.
  induction 1 as [|m merged [t Ht] _ [keyed IH]]; simpl; [by eexists |].
  rewrite Ht, IH. by eexists.
Qed.

Lemma insert_keyed_Permutation x placed :
  insert_keyed x placed ≡ₚ x :: placed.
Proof.
  induction placed as [|y placed IH]; simpl; [done |].
  destruct (datetime_ltb x.1 y.1); [done |].
  rewrite IH. apply Permutation_swap.
Qed.

Lemma insert_keyed_sorted x placed :
  StronglySorted key_le placed →
  StronglySorted key_le (insert_keyed x placed).
Proof.
  induction 1 as [|y placed Hs IH Hy]; simpl.
  - by repeat constructor.
  - destruct (datetime_ltb x.1 y.1) eqn:Hxy.
    + constructor; [by constructor |].
      apply Forall_cons. split; [by apply datetime_ltb_asym |].
      eapply Forall_impl; [exact Hy |]. intros z Hz. unfold key_le in *.
      apply not_true_iff_false. intros Hzx.
      apply not_true_iff_false in Hz. apply Hz.
      by apply datetime_ltb_trans with x.1.
    + constructor; [done |].
      rewrite insert_keyed_Permutation. apply Forall_cons. by split.
Qed.

Lemma sort_keyed_from placed keyed :
  StronglySorted key_le placed →
  foldl (λ placed x, insert_keyed x placed) placed keyed ≡ₚ placed ++ keyed ∧
  StronglySorted key_le
    (foldl (λ placed x, insert_keyed x placed) placed keyed).
Proof.
  revert placed. induction keyed as [|x keyed IH]; intros placed Hs; simpl.
  - by rewrite app_nil_r.
  - destruct (IH (insert_keyed x placed)) as [Hp Hsorted];
      [by apply insert_keyed_sorted |].
    split; [| done].
    rewrite Hp, insert_keyed_Permutation. apply Permutation_middle.
Qed.

Lemma sort_keyed_Permutation keyed : sort_keyed keyed ≡ₚ keyed.
Proof. apply (sort_keyed_from [] keyed). constructor. Qed.

Lemma sort_keyed_sorted keyed : StronglySorted key_le (sort_keyed keyed).
Proof. apply (sort_keyed_from [] keyed). constructor. Qed.

Lemma StronglySorted_lookup {A} (R : A → A → Prop) l i j x y :
  StronglySorted R l → l !! i = Some x → l !! j = Some y →
  (i < j)%nat → R x y.
Proof.
  intros Hs. revert i j. induction Hs as [|a l Hs IH Ha]; intros i j.
  - by rewrite lookup_nil.
  - destruct j as [|j]; [lia |]. destruct i as [|i]; simpl.
    + intros [= <-] Hy _. rewrite Forall_forall in Ha. apply Ha.
      by apply list_elem_of_lookup_2 in Hy.
    + intros Hx Hy Hlt. apply (IH i j); [done | done | lia].
Qed.

(** What [sort_by_kickoff] returns: the same records, in an order in
    which no record stands before one that kicks off earlier. *)
Lemma sort_by_kickoff_Ok merged out :
  sort_by_kickoff merged = Ok out →
  out ≡ₚ merged ∧
  Forall (λ m, is_Some (strptime (kickoff (primary m)))) merged ∧
  ∀ i j mi mj ti tj,
    out !! i = Some mi → out !! j = Some mj →
    strptime (kickoff (primary mi)) = Some ti →
    strptime (kickoff (primary mj)) = Some tj →
    (i < j)%nat → datetime_ltb tj ti = false.
Proof.
  unfold sort_by_kickoff.
  destruct (sort_keys merged) as [keyed|] eqn:Hk; [| done].
  intros [= <-]. apply sort_keys_Ok in Hk as [Hsnd Hkeys].
  split; [by rewrite sort_keyed_Permutation, Hsnd |]. split.
  { rewrite <- Hsnd. apply Forall_fmap.
    eapply Forall_impl; [exact Hkeys |]. intros km Hkm.
    unfold compose. rewrite Hkm. by eexists. }
  intros i j mi mj ti tj Hi Hj Hti Htj Hlt.
  apply list_lookup_fmap_Some in Hi as (ki & -> & Hi).
  apply list_lookup_fmap_Some in Hj as (kj & -> & Hj).
  assert (Hall : Forall (λ km, strptime (kickoff (primary km.2)) = Some km.1)
                   (sort_keyed keyed)) by (by rewrite sort_keyed_Permutation).
  rewrite Forall_forall in Hall.
  pose proof (Hall ki (list_elem_of_lookup_2 _ _ _ Hi)) as Hki.
  pose proof (Hall kj (list_elem_of_lookup_2 _ _ _ Hj)) as Hkj.
  simpl in Hki, Hkj. rewrite Hti in Hki. rewrite Htj in Hkj.
  injection Hki as ->. injection Hkj as ->.
  apply (StronglySorted_lookup key_le _ i j ki kj (sort_keyed_sorted keyed));
    done.
Qed.

(** *** The merge *)

Lemma merge_matches_elem ofs wtm daddylive allfootball out m :
  merge_matches ofs wtm daddylive allfootball = Ok out →
  m ∈ out ↔
  ∃ om, om ∈ ofs ∧
    is_banned_match (home om) (away om) (competition om) = false ∧
    m = merged_record om (wtm ++ daddylive ++ allfootball).
Proof.
  unfold merge_matches. intros (Hperm & _)%sort_by_kickoff_Ok.
  by rewrite Hperm, merge_loop_elem.
Qed.

Lemma clean_channels_covers om srcs ch :
  ch ∈ collect_channels om srcs [] → ch ≠ [] →
  ∃ o, o ∈ channels (merged_record om srcs) ∧ str_lower o = str_lower ch.
Proof.
  intros Hin Hne. simpl. unfold clean_channels.
  destruct (dedup_channels_covers _ ∅ ch Hin Hne) as [[]%not_elem_of_empty|Ho].
  destruct Ho as (o & Ho & Heq). exists o. split; [| done].
  by destruct (dedup_channels _ ∅ []); [apply elem_of_nil in Ho |].
Qed.

Lemma dedup_channels_all_empty l seen :
  Forall (λ ch, ch = []) l → dedup_channels l seen [] = [].
Proof.
  induction 1 as [|ch l -> _ IH]; [done |].
  by rewrite dedup_channels_cons.
Qed.

(** C5: a record of the merge output comes from a OneFootball record
    that [is_banned_match] lets through, so a banned one is never in
    the output; and whatever the competition and team names of a record
    of another source are, when its teams match those of an output
    record its channels are in the accumulated list of that record, the
    non-empty ones in the merged channel list up to letter case. *)
Theorem merge_filters_primary_only
    (ofs : list OFMatch) (wtm daddylive allfootball : list SrcMatch)
    (out : list MergedMatch) :
  merge_matches ofs wtm daddylive allfootball = Ok out →
  (∀ m, m ∈ out →
     primary m ∈ ofs ∧
     is_banned_match (home (primary m)) (away (primary m))
                     (competition (primary m)) = false) ∧
  (∀ om, om ∈ ofs →
     is_banned_match (home om) (away om) (competition om) = true →
     ∀ m, m ∈ out → primary m ≠ om) ∧
  (∀ m src, m ∈ out → src ∈ wtm ++ daddylive ++ allfootball →
     teams_match (Some (home (primary m))) (Some (away (primary m)))
                 (src_home src) (src_away src) = true →
     ∀ ch, ch ∈ default [] (src_channels src) →
       ch ∈ collect_channels (primary m)
              (wtm ++ daddylive ++ allfootball) [] ∧
       (ch ≠ [] → ∃ o, o ∈ channels m ∧ str_lower o = str_lower ch)).
Proof.
  intros Hok.
  assert (Hout : ∀ m, m ∈ out →
            primary m ∈ ofs ∧
            is_banned_match (home (primary m)) (away (primary m))
                            (competition (primary m)) = false).
  { intros m (om & Hin & Hb & ->)%(merge_matches_elem _ _ _ _ _ _ Hok).
    done. }
  split; [done |]. split.
  - intros om _ Hb m [_ Hm]%Hout Heq. rewrite Heq in Hm. congruence.
  - intros m src (om & Hin & Hb & ->)%(merge_matches_elem _ _ _ _ _ _ Hok)
      Hsrc Hmatch ch Hch.
    assert (Hacc : ch ∈ collect_channels om
                          (wtm ++ daddylive ++ allfootball) []).
    { apply collect_channels_elem. by exists src. }
    split; [done |]. intros Hne. by apply clean_channels_covers.
Qed.

(** C6 (amended): the channel list of every output record is the
    deduplicated accumulated list, or the placeholder when that is
    empty. The deduplicated list is a subsequence of the accumulated
    one; no two of its entries are equal up to letter case; every
    non-empty accumulated channel is in it up to letter case; and a
    non-empty channel that no non-empty earlier one equals up to letter
    case stands, as it is written, right behind the deduplication of
    what precedes it. A later repetition, and an empty string, change
    nothing. *)
Theorem dedup_channels_first_seen :
  dedup_channels [py "Sky"; py "BT Sport"; py "sky"; py "SKY"] ∅ []
  = [py "Sky"; py "BT Sport"] ∧
  (∀ ofs wtm daddylive allfootball out m,
     merge_matches ofs wtm daddylive allfootball = Ok out → m ∈ out →
     channels m =
     or_not_specified
       (dedup_channels
          (collect_channels (primary m)
             (wtm ++ daddylive ++ allfootball) []) ∅ [])) ∧
  (∀ accumulated : list pystr,
     dedup_channels accumulated ∅ [] `sublist_of` accumulated ∧
     NoDup (str_lower <$> dedup_channels accumulated ∅ []) ∧
     (∀ ch, ch ∈ accumulated → ch ≠ [] →
        ∃ o, o ∈ dedup_channels accumulated ∅ [] ∧
             str_lower o = str_lower ch) ∧
     (∀ pre ch post, accumulated = pre ++ ch :: post → ch ≠ [] →
        (∀ p, p ∈ pre → p ≠ [] → str_lower p ≠ str_lower ch) →
        ∃ rest, dedup_channels accumulated ∅ [] =
                dedup_channels pre ∅ [] ++ ch :: rest) ∧
     (∀ pre ch post, accumulated = pre ++ ch :: post →
        ch = [] ∨ (∃ p, p ∈ pre ∧ p ≠ [] ∧ str_lower p = str_lower ch) →
        dedup_channels accumulated ∅ [] =
        dedup_channels (pre ++ post) ∅ [])).
Proof using Type + str_lower_ascii.
  split; [| split].
  - assert (Hs : str_lower (py "Sky") = py "sky")
      by (by rewrite str_lower_ascii).
    assert (Hb : str_lower (py "BT Sport") = py "bt sport")
      by (by rewrite str_lower_ascii).
    assert (Hs' : str_lower (py "sky") = py "sky")
      by (by rewrite str_lower_ascii).
    assert (Hs'' : str_lower (py "SKY") = py "sky")
      by (by rewrite str_lower_ascii).
    rewrite !dedup_channels_cons, Hs, Hb, Hs', Hs''. by vm_compute.
  - intros ofs wtm daddylive allfootball out m Hok
      (om & _ & _ & ->)%(merge_matches_elem _ _ _ _ _ _ Hok). done.
  - intros accumulated. split; [apply dedup_channels_sublist |].
    split; [apply dedup_channels_NoDup |]. split; [| split].
    + intros ch Hin Hne.
      by destruct (dedup_channels_covers _ ∅ ch Hin Hne)
        as [[]%not_elem_of_empty|].
    + intros pre ch post -> Hne Hpre.
      apply dedup_channels_first; [done | apply not_elem_of_empty | done].
    + intros pre ch post -> Hrep. apply dedup_channels_repeat.
      destruct Hrep; auto.
Qed.

(** C7: an output record whose deduplicated accumulated list is empty
    has exactly the channel list [["Not specified"]]; so has one that
    no record of another source matched, or whose matching records
    brought no channel. *)
Theorem empty_channels_not_specified
    (ofs : list OFMatch) (wtm daddylive allfootball : list SrcMatch)
    (out : list MergedMatch) (m : MergedMatch) :
  merge_matches ofs wtm daddylive allfootball = Ok out → m ∈ out →
  (dedup_channels
     (collect_channels (primary m) (wtm ++ daddylive ++ allfootball) [])
     ∅ [] = [] →
   channels m = [py "Not specified"]) ∧
  ((∀ src, src ∈ wtm ++ daddylive ++ allfootball →
      teams_match (Some (home (primary m))) (Some (away (primary m)))
                  (src_home src) (src_away src) = true →
      default [] (src_channels src) = []) →
   channels m = [py "Not specified"]).
Proof.
  intros Hok (om & _ & _ & ->)%(merge_matches_elem _ _ _ _ _ _ Hok).
  simpl. unfold clean_channels. split; [by intros -> |].
  intros Hnone.
  assert (collect_channels om (wtm ++ daddylive ++ allfootball) [] = [])
    as ->; [| done].
  apply elem_of_nil_inv. intros ch (src & Hsrc & Hm & Hch)%collect_channels_elem.
  rewrite (Hnone src Hsrc Hm) in Hch. by apply elem_of_nil in Hch.
Qed.

(** C8: when the kickoff of every OneFootball record parses, the merge
    returns a list; and a list that the merge returns holds the records
    that the loop emitted, a record that kicks off earlier always
    before one that kicks off later: of two positions [i < j] the
    second never holds the earlier kickoff. *)
Theorem merge_sorted_by_kickoff
    (ofs : list OFMatch) (wtm daddylive allfootball : list SrcMatch) :
  (Forall (λ om, is_Some (strptime (kickoff om))) ofs →
   ∃ out, merge_matches ofs wtm daddylive allfootball = Ok out) ∧
  (∀ out, merge_matches ofs wtm daddylive allfootball = Ok out →
     out ≡ₚ merge_loop ofs (wtm ++ daddylive ++ allfootball) [] ∧
     (∀ i j mi mj ti tj,
        out !! i = Some mi → out !! j = Some mj →
        strptime (kickoff (primary mi)) = Some ti →
        strptime (kickoff (primary mj)) = Some tj →
        datetime_ltb ti tj = true → (i < j)%nat) ∧
     (∀ i j mi mj ti tj,
        out !! i = Some mi → out !! j = Some mj →
        strptime (kickoff (primary mi)) = Some ti →
        strptime (kickoff (primary mj)) = Some tj →
        (i < j)%nat → datetime_ltb tj ti = false)).
Proof.
  split.
  - intros Hparse. unfold merge_matches, sort_by_kickoff.
    destruct (sort_keys_parsed
                (merge_loop ofs (wtm ++ daddylive ++ allfootball) []))
      as [keyed ->]; [| by eexists].
    apply Forall_forall. intros m (om & Hin & _ & ->)%merge_loop_elem.
    rewrite Forall_forall in Hparse. by apply Hparse.
  - intros out (Hperm & _ & Hsorted)%sort_by_kickoff_Ok.
    split; [done |]. split; [| done].
    intros i j mi mj ti tj Hi Hj Hti Htj Hlt.
    destruct (decide (i < j)%nat) as [| Hge]; [done |].
    destruct (decide (i = j)) as [-> | Hne].
    + rewrite Hi in Hj. injection Hj as ->. rewrite Hti in Htj.
      injection Htj as ->. by rewrite datetime_ltb_irrefl in Hlt.
    + assert (Hji : (j < i)%nat) by lia.
      rewrite (Hsorted j i mj mi tj ti Hj Hi Htj Hti Hji) in Hlt. done.
Qed.

(** C9: the merge raises [ValueError], and returns no list, exactly when
    the kickoff of some OneFootball record that is not banned does not
    parse. *)
Theorem merge_fails_fast
    (ofs : list OFMatch) (wtm daddylive allfootball : list SrcMatch) :
  merge_matches ofs wtm daddylive allfootball = Raise ValueError ↔
  ∃ om, om ∈ ofs ∧
    is_banned_match (home om) (away om) (competition om) = false ∧
    strptime (kickoff om) = None.
Proof.
  unfold merge_matches, sort_by_kickoff.
  set (merged := merge_loop ofs (wtm ++ daddylive ++ allfootball) []).
  split.
  - intros Hraise.
    destruct (decide (Forall (λ m, is_Some (strptime (kickoff (primary m))))
                        merged)) as [Hall | Hex].
    + destruct (sort_keys_parsed merged Hall) as [keyed Hk].
      by rewrite Hk in Hraise.
    + apply not_Forall_Exists in Hex; [| apply _].
      apply Exists_exists in Hex as (m & Hin & Hm).
      apply merge_loop_elem in Hin as (om & Hin & Hb & ->).
      exists om. split; [done |]. split; [done |].
      simpl in Hm. unfold compose in Hm.
      destruct (strptime (kickoff om)); [| done].
      exfalso. apply Hm. by eexists.
  - intros (om & Hin & Hb & Hom). rewrite sort_keys_Raise; [done |].
    exists (merged_record om (wtm ++ daddylive ++ allfootball)).
    split; [| done]. apply merge_loop_elem. by exists om.
Qed.

(** C10: no output record has the empty string among its channels, and
    an output record whose accumulated channels are all the empty string
    has the channel list [["Not specified"]]. *)
Theorem empty_channel_dropped
    (ofs : list OFMatch) (wtm daddylive allfootball : list SrcMatch)
    (out : list MergedMatch) (m : MergedMatch) :
  merge_matches ofs wtm daddylive allfootball = Ok out → m ∈ out →
  ([] ∉ channels m) ∧
  (Forall (λ ch, ch = [])
     (collect_channels (primary m) (wtm ++ daddylive ++ allfootball) []) →
   channels m = [py "Not specified"]).
Proof.
  intros Hok (om & _ & _ & ->)%(merge_matches_elem _ _ _ _ _ _ Hok).
  simpl. unfold clean_channels. split.
  - destruct (dedup_channels _ ∅ []) as [|c l] eqn:Hd; simpl.
    + by intros [=]%list_elem_of_singleton.
    + rewrite <- Hd. by intros [? _]%dedup_channels_elem.
  - intros Hall. by rewrite dedup_channels_all_empty.
Qed.

(** *** Further properties of the name helpers *)

(** A normalised name is a list of words over [a-z], none of them a
    stopword, joined by single spaces; [split] gives the words back. *)
Theorem normalize_team_name_shape (x : option pystr) :
  ∃ ts,
    normalize_team_name x = join_space ts ∧
    split (normalize_team_name x) = ts ∧
    Forall word ts ∧
    Forall (Forall (λ c, is_lower_az c = true)) ts ∧
    Forall (λ t, t ∉ stopwords) ts ∧
    Forall (λ c, letter_or_space c = true) (normalize_team_name x).
Proof.
  unfold normalize_team_name. cbv zeta. set (n := str_lower _).
  destruct (normalize_tokens n) as (Hw & Haz & Hstop).
  set (ts := filter _ (split _)) in *. exists ts.
  split; [done |]. split; [by apply split_join_space |].
  split; [done |]. split; [done |]. split; [done |].
  by apply join_space_clean.
Qed.

Lemma join_space_nil ts : Forall word ts → join_space ts = [] → ts = [].
Proof.
  intros Hw. destruct Hw as [|t ts [Hne _] _]; [done |].
  destruct ts; simpl; [done |]. by destruct t.
Qed.

Lemma normalize_team_name_token n :
  normalize_team_name n ≠ [] → ∃ tok, tok ∈ split (normalize_team_name n).
Proof.
  unfold normalize_team_name. cbv zeta. set (m := str_lower _).
  destruct (normalize_tokens m) as (Hw & _ & _).
  set (ts := filter _ (split _)) in *.
  rewrite split_join_space by done. intros Hne. destruct ts as [|t ts].
  - done.
  - exists t. apply list_elem_of_here.
Qed.

(** A name is equivalent to itself exactly when its normalised form is
    not empty, whatever the scorer. *)
Theorem names_equivalent_refl (n : option pystr) :
  names_equivalent n n = true ↔ normalize_team_name n ≠ [].
Proof.
  split.
  - intros Heq Hnil.
    rewrite names_equivalent_empty in Heq by (by left). done.
  - intros Hne. apply names_equivalent_true_iff; [done | done |].
    left. destruct (normalize_team_name_token n Hne) as [tok Htok]. eauto.
Qed.

(** With a scorer that gives a pair and the swapped pair the same two
    scores, [names_equivalent] does not depend on the order of its
    arguments, and [teams_match] not on which record is taken first. *)
Theorem names_equivalent_sym (n1 n2 : option pystr) :
  (∀ s t, (fuzz_ratio s t == fuzz_ratio t s)%Q) →
  (∀ s t, (fuzz_partial_ratio s t == fuzz_partial_ratio t s)%Q) →
  names_equivalent n1 n2 = names_equivalent n2 n1 ∧
  ∀ a1 a2, teams_match n1 a1 n2 a2 = teams_match n2 a2 n1 a1.
Proof.
  intros Hr Hp.
  assert (Hsym : ∀ m1 m2, names_equivalent m1 m2 = true →
                          names_equivalent m2 m1 = true).
  { intros m1 m2 H12.
    destruct (decide (normalize_team_name m1 = [])) as [H1 | H1];
      [by rewrite names_equivalent_empty in H12 by (by left) |].
    destruct (decide (normalize_team_name m2 = [])) as [H2 | H2];
      [by rewrite names_equivalent_empty in H12 by (by right) |].
    apply names_equivalent_true_iff; [done | done |].
    apply names_equivalent_true_iff in H12; [| done | done].
    destruct H12 as [(tok & ? & ?) | [H | [H | [H | H]]]].
    - left. by exists tok.
    - right. left. by rewrite <- Hr.
    - right. right. left. by rewrite <- Hp.
    - by do 4 right.
    - right. right. right. by left. }
  assert (Heq : ∀ m1 m2, names_equivalent m1 m2 = names_equivalent m2 m1).
  { intros m1 m2.
    destruct (names_equivalent m1 m2) eqn:H12;
      destruct (names_equivalent m2 m1) eqn:H21; try done.
    - apply Hsym in H12. congruence.
    - apply Hsym in H21. congruence. }
  split; [apply Heq |]. intros a1 a2. unfold teams_match.
  by rewrite (Heq n1 n2), (Heq a1 a2).
Qed.

Lemma normalize_team_name_no_ascii x :
  Forall (λ c, is_ascii c = false) (nfkd (or_empty x)) →
  normalize_team_name x = [].
Proof using Type + str_lower_ascii.
  intros Hx. unfold normalize_team_name. cbv zeta.
  unfold decode_utf8, encode_ascii_ignore.
  assert (filter (λ c, is_ascii c) (nfkd (or_empty x)) = []) as ->.
  { induction Hx as [|c l Hc _ IH]; [done |].
    rewrite filter_cons_False by (rewrite Hc; intros H; exact H). done. }
  by rewrite str_lower_ascii.
Qed.

(** A name whose NFKD form has no code point below 128 (a name written
    in Cyrillic, say) normalises to the empty string and is equivalent to
    no name, itself included. *)
Theorem names_equivalent_no_ascii (s : pystr) (n : option pystr) :
  Forall (λ c, is_ascii c = false) (nfkd s) →
  normalize_team_name (Some s) = [] ∧
  names_equivalent (Some s) n = false ∧
  names_equivalent n (Some s) = false ∧
  names_equivalent (Some s) (Some s) = false.
Proof using Type + str_lower_ascii.
  intros Hs.
  assert (Hnil : normalize_team_name (Some s) = [])
    by (by apply normalize_team_name_no_ascii).
  split; [done |].
  split; [by apply names_equivalent_empty; left |].
  split; [by apply names_equivalent_empty; right |].
  by apply names_equivalent_empty; left.
Qed.

Lemma normalize_team_name_empty x :
  or_empty x = [] → normalize_team_name x = [].
Proof using Type + nfkd_ascii + str_lower_ascii.
  intros Hx. apply normalize_team_name_no_ascii.
  rewrite Hx, nfkd_ascii by done. constructor.
Qed.

(** A record of another source that has no [home] or no [away] (the key
    is missing, or bound to [None] or to the empty string) brings no
    channel to any fixture: the scan goes on as if it were not there. *)
Theorem collect_channels_skips_nameless
    (om : OFMatch) (pre post : list SrcMatch) (src : SrcMatch)
    (acc : list pystr) :
  or_empty (src_home src) = [] ∨ or_empty (src_away src) = [] →
  collect_channels om (pre ++ src :: post) acc =
  collect_channels om (pre ++ post) acc.
Proof using Type + nfkd_ascii + str_lower_ascii.
  intros Hsrc.
  assert (Hno : teams_match (Some (home om)) (Some (away om))
                  (src_home src) (src_away src) = false).
  { unfold teams_match. apply andb_false_iff.
    destruct Hsrc as [H | H]; [left | right];
      apply names_equivalent_empty; right;
      by apply normalize_team_name_empty. }
  revert acc. induction pre as [|p pre IH]; intros acc; simpl.
  - by rewrite Hno.
  - destruct (teams_match _ _ (src_home p) _); apply IH.
Qed.

(** A fixture one of whose team names normalises to the empty string
    matches no record, so its channel list is the placeholder whatever
    the other sources hold. *)
Theorem merge_unnormalisable_team
    (ofs : list OFMatch) (wtm daddylive allfootball : list SrcMatch)
    (out : list MergedMatch) (m : MergedMatch) :
  merge_matches ofs wtm daddylive allfootball = Ok out → m ∈ out →
  normalize_team_name (Some (home (primary m))) = [] ∨
  normalize_team_name (Some (away (primary m))) = [] →
  channels m = [py "Not specified"].
Proof.
  intros Hok (om & _ & _ & ->)%(merge_matches_elem _ _ _ _ _ _ Hok) Hnil.
  simpl in *. unfold clean_channels.
  assert (collect_channels om (wtm ++ daddylive ++ allfootball) [] = [])
    as ->; [| done].
  apply elem_of_nil_inv. intros ch (src & _ & Hm & _)%collect_channels_elem.
  unfold teams_match in Hm. apply andb_true_iff in Hm as [Hh Ha].
  destruct Hnil as [H | H].
  - rewrite names_equivalent_empty in Hh by (by left). done.
  - rewrite names_equivalent_empty in Ha by (by left). done.
Qed.

(** *** Further properties of the filter and of the merge *)

(** On strings of code points below 128 the filter does not see the case
    of letters: two calls whose arguments agree once [A-Z] is mapped to
    [a-z] give the same answer. *)
Theorem is_banned_match_ignores_case
    (home away comp home' away' comp' : pystr) :
  forallb is_ascii (home ++ away ++ comp) = true →
  forallb is_ascii (home' ++ away' ++ comp') = true →
  ascii_lower <$> home = ascii_lower <$> home' →
  ascii_lower <$> away = ascii_lower <$> away' →
  ascii_lower <$> comp = ascii_lower <$> comp' →
  is_banned_match home away (Some comp) =
  is_banned_match home' away' (Some comp').
Proof using Type + str_lower_ascii.
  rewrite !forallb_app, !andb_true_iff.
  intros (Hh & Ha & Hc) (Hh' & Ha' & Hc') Eh Ea Ec.
  unfold is_banned_match. simpl or_empty.
  rewrite (str_lower_ascii home), (str_lower_ascii away),
    (str_lower_ascii comp), (str_lower_ascii home'),
    (str_lower_ascii away'), (str_lower_ascii comp') by done.
  by rewrite Eh, Ea, Ec.
Qed.

Lemma merge_loop_primary ofs srcs :
  primary <$> merge_loop ofs srcs [] =
  filter (λ om, is_banned_match (home om) (away om) (competition om) = false)
         ofs.
Proof.
  induction ofs as [|om ofs IH]; [done |].
  rewrite merge_loop_cons.
  destruct (is_banned_match _ _ (competition om)) eqn:Hb.
  - by rewrite filter_cons_False by (by rewrite Hb).
  - rewrite filter_cons_True by done. by rewrite fmap_cons, IH.
Qed.

(** The output has one record for every OneFootball record that is not
    banned, with that record's own fields, and no other: the other
    sources add no row, and no row is lost or doubled. *)
Theorem merge_matches_rows
    (ofs : list OFMatch) (wtm daddylive allfootball : list SrcMatch)
    (out : list MergedMatch) :
  merge_matches ofs wtm daddylive allfootball = Ok out →
  primary <$> out ≡ₚ
    filter (λ om, is_banned_match (home om) (away om) (competition om) = false)
           ofs ∧
  (length out ≤ length ofs)%nat.
Proof.
  unfold merge_matches. intros (Hperm & _)%sort_by_kickoff_Ok.
  assert (Hrows : primary <$> out ≡ₚ
            filter (λ om, is_banned_match (home om) (away om)
                            (competition om) = false) ofs)
    by (by rewrite Hperm, merge_loop_primary).
  split; [done |].
  rewrite <- (length_fmap primary), Hrows. apply length_filter.
Qed.






(** *** Further properties of the channel lists *)

Lemma collect_channels_app om srcs1 srcs2 acc :
  collect_channels om (srcs1 ++ srcs2) acc =
  collect_channels om srcs2 (collect_channels om srcs1 acc).
Proof.
  revert acc. induction srcs1 as [|src srcs1 IH]; intros acc; simpl; [done |].
  destruct (teams_match _ _ _ _); apply IH.
Qed.



(** The channel list of an output record is never empty and holds no two
    entries that are equal up to letter case. *)
Theorem merge_channels_nonempty_nodup
    (ofs : list OFMatch) (wtm daddylive allfootball : list SrcMatch)
    (out : list MergedMatch) (m : MergedMatch) :
  merge_matches ofs wtm daddylive allfootball = Ok out → m ∈ out →
  channels m ≠ [] ∧ NoDup (str_lower <$> channels m).
Proof.
  intros Hok (om & _ & _ & ->)%(merge_matches_elem _ _ _ _ _ _ Hok).
  simpl. unfold clean_channels.
  destruct (dedup_channels _ ∅ []) as [|c l] eqn:Hd; simpl.
  - split; [done |]. apply NoDup_singleton.
  - split; [done |]. rewrite <- fmap_cons, <- Hd. apply dedup_channels_NoDup.
Qed.

Lemma dedup_channels_fixed l seen :
  Forall (λ ch, ch ≠ [] ∧ str_lower ch ∉ seen) l →
  NoDup (str_lower <$> l) →
  dedup_channels l seen [] = l.
Proof.
  revert seen. induction l as [|ch l IH]; intros seen Hall Hnd; [done |].
  apply Forall_cons in Hall as [[Hne Hs] Hall].
  rewrite fmap_cons in Hnd. apply NoDup_cons in Hnd as [Hch Hnd].
  rewrite dedup_channels_cons.
  assert (truthy ch && bool_decide (str_lower ch ∉ seen) = true) as ->
    by (by apply kept_iff).
  f_equal. apply IH; [| done].
  apply Forall_forall. intros c Hc. rewrite Forall_forall in Hall.
  destruct (Hall c Hc) as [Hcne Hcs]. split; [done |].
  intros [Heq%elem_of_singleton | ?]%elem_of_union; [| done].
  apply Hch. rewrite <- Heq. by apply list_elem_of_fmap_2.
Qed.

(** Deduplicating a deduplicated list changes nothing. *)
Theorem dedup_channels_idempotent (l : list pystr) (seen : gset pystr) :
  dedup_channels (dedup_channels l seen []) seen [] =
  dedup_channels l seen [].
Proof.
  apply dedup_channels_fixed; [| apply dedup_channels_NoDup].
  apply Forall_forall. intros o Ho. by apply dedup_channels_elem in Ho.
Qed.

(** *** The records of the fetchers in the merge *)

Lemma collect_channels_no_channels om srcs quiet acc :
  Forall (λ src, default [] (src_channels src) = []) quiet →
  collect_channels om (srcs ++ quiet) acc = collect_channels om srcs acc.
Proof.
  intros Hq. rewrite collect_channels_app.
  generalize (collect_channels om srcs acc). clear acc.
  induction Hq as [|src quiet Hsrc _ IH]; intros acc; simpl; [done |].
  destruct (teams_match _ _ _ _); [| apply IH].
  by rewrite Hsrc, app_nil_r.
Qed.

Lemma merge_loop_ext ofs srcs srcs' merged :
  (∀ om, collect_channels om srcs [] = collect_channels om srcs' []) →
  merge_loop ofs srcs merged = merge_loop ofs srcs' merged.
Proof.
  intros Hsame. revert merged.
  induction ofs as [|om ofs IH]; intros merged; simpl; [done |].
  destruct (is_banned_match _ _ _); [apply IH |]. by rewrite Hsame, IH.
Qed.

(** The records that [fetch_allfootball_matches] builds have no key
    [channels]: with them or without them the merge gives the same. *)
Theorem merge_ignores_allfootball
    (ofs : list OFMatch) (wtm daddylive : list SrcMatch)
    (raw : list (gmap string (option pystr) * pystr)) :
  merge_matches ofs wtm daddylive
    ((λ mk, allfootball_record mk.1 mk.2) <$> raw) =
  merge_matches ofs wtm daddylive [].
Proof.
  unfold merge_matches. f_equal. apply merge_loop_ext. intros om.
  rewrite !app_assoc, app_nil_r. apply collect_channels_no_channels.
  apply Forall_fmap, Forall_forall. by intros mk _.
Qed.

(** A row of WherestheMatch without a channel image is a record with the
    channel [Not specified]; when it matches a fixture, that placeholder
    is in the fixture's channel list (up to letter case) together with
    every non-empty channel the other matching records bring. *)
Theorem merge_wtm_placeholder
    (ofs : list OFMatch) (wtm daddylive allfootball : list SrcMatch)
    (out : list MergedMatch) (m : MergedMatch) (h a c k : pystr) :
  merge_matches ofs wtm daddylive allfootball = Ok out → m ∈ out →
  wtm_record h a c k [] ∈ wtm →
  teams_match (Some (home (primary m))) (Some (away (primary m)))
              (Some h) (Some a) = true →
  (∃ o, o ∈ channels m ∧ str_lower o = str_lower (py "Not specified")) ∧
  (∀ src ch, src ∈ wtm ++ daddylive ++ allfootball →
     teams_match (Some (home (primary m))) (Some (away (primary m)))
                 (src_home src) (src_away src) = true →
     ch ∈ default [] (src_channels src) → ch ≠ [] →
     ∃ o, o ∈ channels m ∧ str_lower o = str_lower ch).
Proof.
  intros Hok (om & _ & _ & ->)%(merge_matches_elem _ _ _ _ _ _ Hok)
    Hrow Hmatch.
  assert (Hcov : ∀ src ch, src ∈ wtm ++ daddylive ++ allfootball →
     teams_match (Some (home om)) (Some (away om))
                 (src_home src) (src_away src) = true →
     ch ∈ default [] (src_channels src) → ch ≠ [] →
     ∃ o, o ∈ channels (merged_record om (wtm ++ daddylive ++ allfootball))
          ∧ str_lower o = str_lower ch).
  { intros src ch Hsrc Hm Hch Hne. apply clean_channels_covers; [| done].
    apply collect_channels_elem. by exists src. }
  split; [| exact Hcov].
  apply (Hcov (wtm_record h a c k [])); [| done | | done].
  - apply elem_of_app. by left.
  - apply list_elem_of_here.
Qed.



(** *** The report *)





End Matches.

(** ** The program on the sample library *)

Lemma nfkd_sample_ascii s : forallb is_ascii s = true → nfkd_sample s = s.
Proof.
  unfold nfkd_sample. induction s as [|c s IH]; [done |]. simpl forallb.
  intros [Hc Hs]%andb_true_iff. rewrite bind_cons, (IH Hs).
  unfold is_ascii in Hc. apply N.ltb_lt in Hc. unfold nfkd_sample_char.
  by repeat (rewrite (proj2 (N.eqb_neq c _)) by lia).
Qed.

Lemma lower_sample_ascii s :
  forallb is_ascii s = true → lower_sample s = ascii_lower <$> s.
Proof.
  unfold lower_sample. induction s as [|c s IH]; [done |]. simpl forallb.
  intros [Hc Hs]%andb_true_iff. rewrite !fmap_cons, (IH Hs). f_equal.
  unfold is_ascii in Hc. apply N.ltb_lt in Hc.
  unfold lower_sample_char, ascii_lower.
  destruct (is_upper_AZ c); [done |].
  replace (192 <=? c) with false by (symmetry; apply N.leb_gt; lia). done.
Qed.

Example normalize_sample :
  normalize_team_name nfkd_sample lower_sample
    (Some (py "Atl" ++ [233] ++ py "tico  de Madrid C.F."))
  = py "atletico de madrid c f".
Proof. by vm_compute. Qed.

Example normalize_stopwords :
  normalize_team_name nfkd_sample lower_sample
    (Some (py "The Manchester United FC")) = py "manchester united".
Proof. by vm_compute. Qed.

Example is_banned_match_youth :
  is_banned_match lower_sample None (py "Ajax") (py "Benfica")
    (Some (py "UEFA Youth League")) = true.
Proof. by vm_compute. Qed.

Example is_banned_match_women_team :
  is_banned_match lower_sample None (py "Chelsea Women") (py "Arsenal")
    (Some (py "FA Cup")) = true.
Proof. by vm_compute. Qed.

Example is_banned_match_listed :
  is_banned_match lower_sample (Some [py "  Club Friendlies "; []])
    (py "Ajax") (py "Benfica") (Some (py "CLUB FRIENDLIES")) = true.
Proof. by vm_compute. Qed.

Example is_banned_match_none :
  is_banned_match lower_sample (Some [py "  Club Friendlies "; []])
    (py "Arsenal") (py "Chelsea") None = false.
Proof. by vm_compute. Qed.

(** The sample merge, named for the lemmas below. *)
Lemma merge_sample_Ok :
  merge_matches nfkd_sample lower_sample ratio_sample partial_ratio_sample
    strptime_sample None
    [arsenal_chelsea; arsenal_chelsea_women; leeds_burnley; everton_fulham]
    [wtm_arsenal; wtm_leeds_untitled] [daddylive_arsenal_women] []
  = Ok [mkMergedMatch leeds_burnley [py "Not specified"];
        mkMergedMatch arsenal_chelsea [py "BBC"; py "ESPN"];
        mkMergedMatch everton_fulham [py "Not specified"]].
Proof. by vm_compute. Qed.

(** [Real Madrid] and [Real Sociedad] share the token [real]. *)
Lemma names_equivalent_spec_witness :
  names_equivalent nfkd_sample lower_sample ratio_sample partial_ratio_sample
    (Some (py "Real Madrid")) (Some (py "Real Sociedad")) = true.
Proof.
  apply (names_equivalent_spec nfkd_sample lower_sample ratio_sample
           partial_ratio_sample
           (Some (py "Real Madrid")) (Some (py "Real Sociedad"))).
  - by vm_compute.
  - by vm_compute.
  - left. exists (py "real"). split; vm_compute; apply list_elem_of_here.
Defined.

Lemma teams_match_spec_witness :
  teams_match nfkd_sample lower_sample ratio_sample partial_ratio_sample
    (Some (py "A")) (Some (py "B")) (Some (py "A")) (Some (py "B")) = true ∧
  teams_match nfkd_sample lower_sample ratio_sample partial_ratio_sample
    (Some (py "A")) (Some (py "B")) (Some (py "B")) (Some (py "A")) = false.
Proof.
  apply (teams_match_spec nfkd_sample lower_sample ratio_sample
           partial_ratio_sample nfkd_sample_ascii lower_sample_ascii).
  - intros H%Qle_bool_iff. by vm_compute in H.
  - intros H%Qle_bool_iff. by vm_compute in H.
Defined.

Lemma normalize_idempotent_witness :
  normalize_team_name nfkd_sample lower_sample
    (Some (normalize_team_name nfkd_sample lower_sample
             (Some (py "Atl" ++ [233] ++ py "tico  de Madrid C.F."))))
  = normalize_team_name nfkd_sample lower_sample
      (Some (py "Atl" ++ [233] ++ py "tico  de Madrid C.F.")).
Proof.
  apply (normalize_idempotent nfkd_sample lower_sample
           nfkd_sample_ascii lower_sample_ascii).
Defined.

(** The women's listing would be banned as a OneFootball record, and its
    channel [ESPN] is in the merged list of the men's fixture. *)
Lemma merge_filters_primary_only_witness :
  is_banned_match lower_sample None (py "Arsenal Women") (py "Chelsea Women")
    (Some (py "Women's Super League")) = true ∧
  ∃ o, o ∈ [py "BBC"; py "ESPN"] ∧ lower_sample o = lower_sample (py "ESPN").
Proof.
  split; [by vm_compute |].
  refine (proj2 (proj2 (proj2
    (merge_filters_primary_only nfkd_sample lower_sample ratio_sample
       partial_ratio_sample strptime_sample None _ _ _ _ _ merge_sample_Ok))
    (mkMergedMatch arsenal_chelsea [py "BBC"; py "ESPN"])
    daddylive_arsenal_women _ _ _ (py "ESPN") _) _).
  - apply list_elem_of_further, list_elem_of_here.
  - apply list_elem_of_further, list_elem_of_further, list_elem_of_here.
  - by vm_compute.
  - apply list_elem_of_here.
  - by vm_compute.
Defined.

(** As C6 is written, every accumulated channel is in the output once;
    the empty string is an accumulated channel that is not. *)
Lemma dedup_channels_counterexample :
  ¬ (∀ ch, ch ∈ [py "Sky"; []] →
       ∃ o, o ∈ dedup_channels lower_sample [py "Sky"; []] ∅ [] ∧
            lower_sample o = lower_sample ch).
Proof.
  intros H. destruct (H [] (list_elem_of_further _ _ _ (list_elem_of_here _ _)))
    as (o & Ho & Heq).
  vm_compute in Ho. apply list_elem_of_singleton in Ho as ->.
  by vm_compute in Heq.
Qed.

Lemma dedup_channels_first_seen_witness :
  dedup_channels lower_sample
    [py "Sky"; py "BT Sport"; py "sky"; py "SKY"] ∅ []
  = [py "Sky"; py "BT Sport"] ∧
  ∃ rest,
    dedup_channels lower_sample [py "Sky"; []; py "sky"; py "BT Sport"] ∅ []
    = dedup_channels lower_sample [py "Sky"; []; py "sky"] ∅ []
      ++ py "BT Sport" :: rest.
Proof.
  pose proof (dedup_channels_first_seen nfkd_sample lower_sample ratio_sample
                partial_ratio_sample strptime_sample None lower_sample_ascii)
    as (Hex & _ & Hall).
  split; [exact Hex |].
  destruct (Hall [py "Sky"; []; py "sky"; py "BT Sport"])
    as (_ & _ & _ & Hfirst & _).
  apply (Hfirst [py "Sky"; []; py "sky"] (py "BT Sport") []); [done | done |].
  intros p Hp Hne Heq.
  repeat (apply elem_of_cons in Hp as [-> | Hp]; [by vm_compute in Heq |]).
  by apply elem_of_nil in Hp.
Defined.

Lemma empty_channels_not_specified_witness :
  channels (mkMergedMatch everton_fulham [py "Not specified"])
  = [py "Not specified"].
Proof.
  refine (proj1
    (empty_channels_not_specified nfkd_sample lower_sample ratio_sample
       partial_ratio_sample strptime_sample None _ _ _ _ _
       (mkMergedMatch everton_fulham [py "Not specified"])
       merge_sample_Ok _) _).
  - do 2 apply list_elem_of_further. apply list_elem_of_here.
  - by vm_compute.
Defined.

(** Kickoffs 17:30, 12:30 and 20:00 come out as 12:30, 17:30, 20:00. *)
Lemma merge_sorted_by_kickoff_witness :
  merge_matches nfkd_sample lower_sample ratio_sample partial_ratio_sample
    strptime_sample None
    [arsenal_chelsea; leeds_burnley; everton_fulham] [] [] []
  = Ok [mkMergedMatch leeds_burnley [py "Not specified"];
        mkMergedMatch arsenal_chelsea [py "Not specified"];
        mkMergedMatch everton_fulham [py "Not specified"]] ∧
  (0 < 1)%nat ∧
  datetime_ltb (mkDatetime 2024 5 1 17 30) (mkDatetime 2024 5 1 12 30) = false.
Proof.
  assert (Hok :
    merge_matches nfkd_sample lower_sample ratio_sample partial_ratio_sample
      strptime_sample None
      [arsenal_chelsea; leeds_burnley; everton_fulham] [] [] []
    = Ok [mkMergedMatch leeds_burnley [py "Not specified"];
          mkMergedMatch arsenal_chelsea [py "Not specified"];
          mkMergedMatch everton_fulham [py "Not specified"]])
    by (by vm_compute).
  split; [exact Hok |].
  destruct (proj2 (merge_sorted_by_kickoff nfkd_sample lower_sample
                     ratio_sample partial_ratio_sample strptime_sample None
                     [arsenal_chelsea; leeds_burnley; everton_fulham] [] [] [])
              _ Hok) as (_ & Hbefore & Hsorted).
  split.
  - apply (Hbefore 0%nat 1%nat
             (mkMergedMatch leeds_burnley [py "Not specified"])
             (mkMergedMatch arsenal_chelsea [py "Not specified"])
             (mkDatetime 2024 5 1 12 30) (mkDatetime 2024 5 1 17 30));
      by vm_compute.
  - apply (Hsorted 0%nat 1%nat
             (mkMergedMatch leeds_burnley [py "Not specified"])
             (mkMergedMatch arsenal_chelsea [py "Not specified"])
             (mkDatetime 2024 5 1 12 30) (mkDatetime 2024 5 1 17 30));
      solve [by vm_compute | lia].
Defined.

(** One record with the kickoff [Unknown] ends the whole merge. *)
Lemma merge_fails_fast_witness :
  merge_matches nfkd_sample lower_sample ratio_sample partial_ratio_sample
    strptime_sample None
    [arsenal_chelsea; porto_braga_unparsed; everton_fulham]
    [wtm_arsenal] [] []
  = Raise ValueError.
Proof.
  apply (merge_fails_fast nfkd_sample lower_sample ratio_sample
           partial_ratio_sample strptime_sample None).
  exists porto_braga_unparsed. split; [| by vm_compute].
  apply list_elem_of_further, list_elem_of_here.
Defined.

(** The listing of Leeds brings two empty channel names and nothing else. *)
Lemma empty_channel_dropped_witness :
  ([] ∉ channels (mkMergedMatch leeds_burnley [py "Not specified"])) ∧
  channels (mkMergedMatch leeds_burnley [py "Not specified"])
  = [py "Not specified"].
Proof.
  destruct (empty_channel_dropped nfkd_sample lower_sample ratio_sample
              partial_ratio_sample strptime_sample None _ _ _ _ _
              (mkMergedMatch leeds_burnley [py "Not specified"])
              merge_sample_Ok (list_elem_of_here _ _)) as [Hno Hall].
  split; [exact Hno |]. apply Hall.
  vm_compute. by repeat constructor.
Defined.

(** ** Further properties, and their instances *)

(** Lines added to [banned.txt] ban more and never less: a fixture that
    is banned with a file, or without one, is banned with every file that
    holds at least the same lines. *)
Theorem is_banned_match_more_lines
    (str_lower : pystr → pystr) (file : option (list pystr))
    (lines' : list pystr) (home away : pystr) (competition : option pystr) :
  (∀ line, line ∈ default [] file → line ∈ lines') →
  is_banned_match str_lower file home away competition = true →
  is_banned_match str_lower (Some lines') home away competition = true.
Proof.
  intros Hsub. unfold is_banned_match, BANNED_TOURNAMENTS_LOWER.
  case_bool_decide as Hin; case_bool_decide as Hin'; try done.
  intros _. exfalso. apply Hin'. destruct file as [lines|].
  - apply elem_of_load_banned_tournaments in Hin as (line & Hl & Hne & Heq).
    apply elem_of_load_banned_tournaments. exists line.
    split; [by apply Hsub | done].
  - by apply not_elem_of_empty in Hin.
Qed.

Lemma is_banned_match_more_lines_witness :
  is_banned_match lower_sample
    (Some [py "Club Friendlies"; py "Kings League"])
    (py "Ajax") (py "Benfica") (Some (py "kings league")) = true.
Proof.
  apply (is_banned_match_more_lines lower_sample
           (Some [py "Kings League"])).
  - intros line Hin. by apply list_elem_of_further.
  - by vm_compute.
Defined.

Lemma exact_score_sym s t : (exact_score s t == exact_score t s)%Q.
Proof.
  unfold exact_score.
  destruct (decide (s = t)), (decide (t = s)); try reflexivity; congruence.
Qed.

Lemma names_equivalent_sym_witness :
  names_equivalent nfkd_sample lower_sample exact_score exact_score
    (Some (py "Real Madrid")) (Some (py "Madrid CF")) =
  names_equivalent nfkd_sample lower_sample exact_score exact_score
    (Some (py "Madrid CF")) (Some (py "Real Madrid")).
Proof.
  apply (names_equivalent_sym nfkd_sample lower_sample exact_score
           exact_score _ _ exact_score_sym exact_score_sym).
Defined.

Lemma names_equivalent_no_ascii_witness :
  normalize_team_name nfkd_sample lower_sample (Some spartak) = [] ∧
  names_equivalent nfkd_sample lower_sample ratio_sample
    partial_ratio_sample (Some spartak) (Some spartak) = false.
Proof.
  destruct (names_equivalent_no_ascii nfkd_sample lower_sample ratio_sample
              partial_ratio_sample lower_sample_ascii spartak (Some spartak))
    as (Hnil & _ & _ & Hself); [| by split].
  vm_compute. by repeat constructor.
Defined.

Lemma collect_channels_skips_nameless_witness :
  collect_channels nfkd_sample lower_sample ratio_sample partial_ratio_sample
    arsenal_chelsea
    ([wtm_arsenal]
       ++ mkSrcMatch None (Some (py "Chelsea")) None None (Some [py "ITV"])
       :: [daddylive_arsenal_women]) [] =
  collect_channels nfkd_sample lower_sample ratio_sample partial_ratio_sample
    arsenal_chelsea ([wtm_arsenal] ++ [daddylive_arsenal_women]) [].
Proof.
  apply (collect_channels_skips_nameless nfkd_sample lower_sample
           ratio_sample partial_ratio_sample nfkd_sample_ascii
           lower_sample_ascii).
  by left.
Defined.

Lemma merge_unnormalisable_team_witness :
  channels (mkMergedMatch fc_chelsea [py "Not specified"])
  = [py "Not specified"].
Proof.
  assert (Hok :
    merge_matches nfkd_sample lower_sample ratio_sample partial_ratio_sample
      strptime_sample None [fc_chelsea] [wtm_arsenal] [daddylive_chelsea] []
    = Ok [mkMergedMatch fc_chelsea [py "Not specified"]]) by (by vm_compute).
  apply (merge_unnormalisable_team _ _ _ _ _ _ _ _ _ _ _ _ Hok).
  - apply list_elem_of_here.
  - left. by vm_compute.
Defined.

Lemma is_banned_match_ignores_case_witness :
  is_banned_match lower_sample None (py "AJAX") (py "Benfica")
    (Some (py "UEFA YOUTH LEAGUE")) =
  is_banned_match lower_sample None (py "Ajax") (py "BENFICA")
    (Some (py "Uefa Youth League")).
Proof.
  apply (is_banned_match_ignores_case lower_sample None lower_sample_ascii);
    by vm_compute.
Defined.

Lemma merge_matches_rows_witness :
  primary <$> [mkMergedMatch leeds_burnley [py "Not specified"];
               mkMergedMatch arsenal_chelsea [py "BBC"; py "ESPN"];
               mkMergedMatch everton_fulham [py "Not specified"]]
  ≡ₚ filter (λ om, is_banned_match lower_sample None (home om) (away om)
                     (competition om) = false)
       [arsenal_chelsea; arsenal_chelsea_women; leeds_burnley;
        everton_fulham].
Proof.
  apply (merge_matches_rows _ _ _ _ _ _ _ _ _ _ _ merge_sample_Ok).
Defined.


Lemma merge_channels_nonempty_nodup_witness :
  [py "BBC"; py "ESPN"] ≠ [] ∧
  NoDup (lower_sample <$> [py "BBC"; py "ESPN"]).
Proof.
  apply (merge_channels_nonempty_nodup _ _ _ _ _ _ _ _ _ _ _
           (mkMergedMatch arsenal_chelsea [py "BBC"; py "ESPN"])
           merge_sample_Ok).
  apply list_elem_of_further, list_elem_of_here.
Defined.

(** The row without a channel image puts [Not specified] in front of the
    channels that DaddyLive brings. *)
Lemma merge_wtm_placeholder_witness :
  merge_matches nfkd_sample lower_sample ratio_sample partial_ratio_sample
    strptime_sample None [arsenal_chelsea] [wtm_arsenal_no_image]
    [daddylive_arsenal_women] []
  = Ok [mkMergedMatch arsenal_chelsea
          [py "Not specified"; py "ESPN"; py "bbc"]] ∧
  ∃ o, o ∈ [py "Not specified"; py "ESPN"; py "bbc"] ∧
       lower_sample o = lower_sample (py "Not specified").
Proof.
  assert (Hok :
    merge_matches nfkd_sample lower_sample ratio_sample partial_ratio_sample
      strptime_sample None [arsenal_chelsea] [wtm_arsenal_no_image]
      [daddylive_arsenal_women] []
    = Ok [mkMergedMatch arsenal_chelsea
            [py "Not specified"; py "ESPN"; py "bbc"]]) by (by vm_compute).
  split; [exact Hok |].
  refine (proj1 (merge_wtm_placeholder _ _ _ _ _ _ _ _ _ _ _
                   (mkMergedMatch arsenal_chelsea
                      [py "Not specified"; py "ESPN"; py "bbc"])
                   (py "Arsenal FC") (py "Chelsea FC") (py "Premier League")
                   (py "2024-05-01 17:30") Hok _ _ _)).
  - apply list_elem_of_here.
  - apply list_elem_of_here.
  - by vm_compute.
Defined.


Example daddylive_record_extra_streams :
  daddylive_record lower_sample (py " Serie A ") (py "Roma") (py "Lazio")
    [EntryStr (py "Extra Stream 1"); EntryOther]
    [EntryDict {[ "channel_name"%string := py "EXTRA STREAM 2" ]}]
  = None.
Proof. by vm_compute. Qed.

Example daddylive_record_unnamed :
  daddylive_record lower_sample (py " Serie A ") (py "Roma") (py "Lazio")
    [EntryStr (py "Extra Stream 1"); EntryOther]
    [EntryDict {[ "channel_id"%string := py "77" ]}]
  = Some (listing "Roma" "Lazio" "Serie A"
            [py "Extra Stream 1"; py "Unknown"]).
Proof. by vm_compute. Qed.

